(** * The dog record store of task-fastapi/main.py

    A shallow embedding of the request handlers of [main.py] (the FastAPI
    application that keeps dog records in the module-level dict [DB_DOGS])
    and the properties of its specification that were checked against it.

    What is modelled:
    - Python [int] is [Z]; a Python [str] is the [string] of its UTF-8
      bytes, so that [==] on [str] is equality and [<] on [str] is the order
      of the bytes; [str.lower], whose Unicode tables are Python's, is a
      parameter of the search, known to be [lower] below on ASCII text;
    - [DB_DOGS] is an insertion-ordered dict with [int] keys: an association
      list, in insertion order, with the dict operations the handlers use;
    - the handlers read and write the global dict: here they take the store
      and, when they write, return the new store next to their result;
    - an exception that leaves a handler is a value of [exn]: the two
      [HTTPException]s the handlers raise themselves, and [Unhandled] for any
      other exception (a [TypeError] or [ValueError] that escapes, which the
      framework turns into a 500 answer).

    What is outside: routing, the parsing and validation of request bodies
    and the serialisation of answers, which belong to the framework.  A
    request body of type [Dog] reaches [create_dog] validated, the body of
    [update_dog] is a [Dict[str, Optional[str]]]. *)

From Stdlib Require Import ZArith List String Ascii Bool Lia.
Import ListNotations.
Open Scope string_scope.
Open Scope Z_scope.

(** ** Data model *)

(** [class DogType(str, Enum)] *)
Inductive DogType : Type := terrier | bulldog | dalmatian.

(** The [str] value of each member. *)
Definition DogType_value (k : DogType) : string :=
  match k with
  | terrier => "terrier"
  | bulldog => "bulldog"
  | dalmatian => "dalmatian"
  end.

Definition DogType_eqb (a b : DogType) : bool :=
  match a, b with
  | terrier, terrier | bulldog, bulldog | dalmatian, dalmatian => true
  | _, _ => false
  end.

(** [class Dog(BaseModel)] as it is declared: the field values of a validated
    instance, which is what a parsed request body and the arguments of the
    constructor call in [create_dog] are. *)
Record Dog : Type := mkDog {
  pk : option Z;
  name : string;
  kind : DogType;
  age : option Z;
  owner : option string;
  vaccinated : bool
}.

(** The value of an attribute of a live object.  The model class validates
    when an instance is built, not when an attribute is assigned (assignment
    validation is off unless configured, and [Dog] configures nothing), and
    [update_dog] assigns the [str] values of its body with [setattr].  So an
    attribute of a stored dog holds a value of its declared type or a [str]
    that [update_dog] put there. *)
Inductive attr (A : Type) : Type :=
| Valid (a : A)
| Str (s : string).
Arguments Valid {A} a.
Arguments Str {A} s.

(** A [Dog] object held by [DB_DOGS].  [name] is declared [str] and [owner]
    [Optional[str]], so an assigned [str] is of the declared type there.
    Besides its six fields the object has the state it inherits from its
    base class; [update_dog] can assign to names of that state too, and
    [obj_extra] keeps what it assigned there, the latest assignment first. *)
Record DogObj : Type := mkObj {
  obj_pk : attr (option Z);
  obj_name : string;
  obj_kind : attr DogType;
  obj_age : attr (option Z);
  obj_owner : option string;
  obj_vaccinated : attr bool;
  obj_extra : list (string * string)
}.

(** [Dog(pk=pk, name=dog.name, kind=dog.kind, age=dog.age, owner=dog.owner,
    vaccinated=dog.vaccinated)]: a new object, field by field. *)
Definition Dog_init (pk0 : Z) (dog : Dog) : DogObj :=
  {| obj_pk := Valid (Some pk0);
     obj_name := name dog;
     obj_kind := Valid (kind dog);
     obj_age := Valid (age dog);
     obj_owner := owner dog;
     obj_vaccinated := Valid (vaccinated dog);
     obj_extra := [] |}.

(** ** Exceptions and results *)

Inductive exn : Type :=
| NotFound                              (* HTTPException, HTTP_404_NOT_FOUND *)
| InvalidField (invalid_keys : list string) (* HTTPException, HTTP_400_BAD_REQUEST *)
| Unhandled.                            (* any other exception: a 500 answer *)

Definition status_code (e : exn) : Z :=
  match e with
  | NotFound => 404
  | InvalidField _ => 400
  | Unhandled => 500
  end.

Inductive result (A : Type) : Type :=
| Ok (a : A)
| Raise (e : exn).
Arguments Ok {A} a.
Arguments Raise {A} e.

(** ** The dict [DB_DOGS] *)

Definition dict : Type := list (Z * DogObj).

(** [DB_DOGS.get(k)] *)
Fixpoint dict_get (k : Z) (d : dict) : option DogObj :=
  match d with
  | [] => None
  | (k', v) :: rest => if k' =? k then Some v else dict_get k rest
  end.

(** [DB_DOGS[k] = v]: a key already present keeps its place. *)
Fixpoint dict_set (k : Z) (v : DogObj) (d : dict) : dict :=
  match d with
  | [] => [(k, v)]
  | (k', v') :: rest =>
      if k' =? k then (k, v) :: rest else (k', v') :: dict_set k v rest
  end.

(** What is left of the dict after [DB_DOGS.pop(k)]. *)
Definition dict_del (k : Z) (d : dict) : dict :=
  filter (fun e => negb (fst e =? k)) d.

(** [DB_DOGS.keys()] and [DB_DOGS.values()] *)
Definition keys (d : dict) : list Z := map fst d.
Definition values (d : dict) : list DogObj := map snd d.

(** ** Python operations the handlers rely on *)

(** What [str.lower] does on ASCII text: the letters A to Z are folded,
    every other character stays. *)
Definition lower_ascii (c : ascii) : ascii :=
  let n := nat_of_ascii c in
  if ((65 <=? n) && (n <=? 90))%nat then ascii_of_nat (n + 32) else c.

Fixpoint lower (s : string) : string :=
  match s with
  | EmptyString => EmptyString
  | String c rest => String (lower_ascii c) (lower rest)
  end.

(** The [str] is ASCII text: every byte is below 128. *)
Fixpoint ascii_only (s : string) : bool :=
  match s with
  | EmptyString => true
  | String c rest => (nat_of_ascii c <? 128)%nat && ascii_only rest
  end.

(** [dog.kind == kind] for a member [kind] of [DogType]: the enumeration
    mixes in [str], so a plain [str] equals the member with that value. *)
Definition kind_eq (a : attr DogType) (k : DogType) : bool :=
  match a with
  | Valid k' => DogType_eqb k' k
  | Str s => String.eqb s (DogType_value k)
  end.

(** [not pk] for the [pk] of a request body: [None] and [0] are falsy. *)
Definition falsy (p : option Z) : bool :=
  match p with
  | None => true
  | Some z => z =? 0
  end.

(** [a > b] between two [pk] attributes; [None] is the [TypeError] of a
    comparison Python does not define ([int] with [str], anything with
    [None]). *)
Definition pk_gt (a b : attr (option Z)) : option bool :=
  match a, b with
  | Valid (Some x), Valid (Some y) => Some (x >? y)
  | Str s, Str t => Some (String.ltb t s)
  | _, _ => None
  end.

(** The loop of the builtin [max]: the first item, replaced by each later
    item that compares greater. *)
Fixpoint max_loop (items : list (attr (option Z))) (maxitem : attr (option Z))
  : option (attr (option Z)) :=
  match items with
  | [] => Some maxitem
  | item :: rest =>
      match pk_gt item maxitem with
      | None => None
      | Some true => max_loop rest item
      | Some false => max_loop rest maxitem
      end
  end.

Definition py_max (items : list (attr (option Z))) : option (attr (option Z)) :=
  match items with
  | [] => None
  | item :: rest => max_loop rest item
  end.

(** [v + 1]: defined on an [int] only. *)
Definition plus_one (v : attr (option Z)) : option Z :=
  match v with
  | Valid (Some z) => Some (z + 1)
  | _ => None
  end.

(** ** The handlers that do not depend on the base class *)

(** [GET /] *)
Definition root (db : dict) : list DogObj := values db.

(** [GET /dog?kind=] *)
Definition get_dogs (kind0 : DogType) (db : dict) : list DogObj :=
  filter (fun dog => kind_eq (obj_kind dog) kind0) (values db).

(** The identifier [create_dog] stores under; [None] when computing it
    raises. *)
Definition new_pk (dog : Dog) (db : dict) : option Z :=
  if falsy (pk dog) then
    match db with
    | _ :: _ =>
        match py_max (map obj_pk (values db)) with
        | Some m => plus_one m
        | None => None
        end
    | [] => Some 1
    end
  else pk dog.

(** [POST /dog] *)
Definition create_dog (dog : Dog) (db : dict) : result DogObj * dict :=
  match new_pk dog db with
  | None => (Raise Unhandled, db)
  | Some pk0 =>
      let db' := dict_set pk0 (Dog_init pk0 dog) db in
      match dict_get pk0 db' with
      | Some stored => (Ok stored, db')
      | None => (Raise Unhandled, db')
      end
  end.

(** [GET /dog/search?name=], with [str.lower] as [str_lower]. *)
Definition search_dog_by_name (str_lower : string -> string) (name0 : string)
  (db : dict) : result (list DogObj) :=
  let found :=
    filter (fun dog => String.eqb (str_lower (obj_name dog)) (str_lower name0))
      (values db) in
  match found with
  | [] => Raise NotFound
  | _ :: _ => Ok found
  end.

(** [GET /dog/{pk}]: an object of the model class is always truthy, so the
    walrus test fails only on the [None] of a missing key. *)
Definition get_dog_by_pk (pk0 : Z) (db : dict) : result DogObj :=
  match dict_get pk0 db with
  | Some dog => Ok dog
  | None => Raise NotFound
  end.

(** [DELETE /dog/{pk}] *)
Definition delete_dog (pk0 : Z) (db : dict) : result DogObj * dict :=
  match dict_get pk0 db with
  | None => (Raise NotFound, db)
  | Some deleted_dog => (Ok deleted_dog, dict_del pk0 db)
  end.

(** ** [update_dog] *)

(** The six fields of [Dog]. *)
Inductive field : Type :=
| f_pk | f_name | f_kind | f_age | f_owner | f_vaccinated.

Definition field_of (key : string) : option field :=
  if String.eqb key "pk" then Some f_pk
  else if String.eqb key "name" then Some f_name
  else if String.eqb key "kind" then Some f_kind
  else if String.eqb key "age" then Some f_age
  else if String.eqb key "owner" then Some f_owner
  else if String.eqb key "vaccinated" then Some f_vaccinated
  else None.

(** What [setattr(dog, f, value)] stores for a field [f]: the [str] as it
    is, in that field. *)
Definition set_field (f : field) (value : string) (dog : DogObj) : DogObj :=
  match f with
  | f_pk => mkObj (Str value) (obj_name dog) (obj_kind dog) (obj_age dog)
              (obj_owner dog) (obj_vaccinated dog) (obj_extra dog)
  | f_name => mkObj (obj_pk dog) value (obj_kind dog) (obj_age dog)
                (obj_owner dog) (obj_vaccinated dog) (obj_extra dog)
  | f_kind => mkObj (obj_pk dog) (obj_name dog) (Str value) (obj_age dog)
                (obj_owner dog) (obj_vaccinated dog) (obj_extra dog)
  | f_age => mkObj (obj_pk dog) (obj_name dog) (obj_kind dog) (Str value)
               (obj_owner dog) (obj_vaccinated dog) (obj_extra dog)
  | f_owner => mkObj (obj_pk dog) (obj_name dog) (obj_kind dog) (obj_age dog)
                 (Some value) (obj_vaccinated dog) (obj_extra dog)
  | f_vaccinated => mkObj (obj_pk dog) (obj_name dog) (obj_kind dog) (obj_age dog)
                      (obj_owner dog) (Str value) (obj_extra dog)
  end.

(** What [setattr(dog, key, value)] stores for an inherited name that takes
    the assignment: the six fields stay, the object remembers the value. *)
Definition set_extra (key value : string) (dog : DogObj) : DogObj :=
  mkObj (obj_pk dog) (obj_name dog) (obj_kind dog) (obj_age dog)
    (obj_owner dog) (obj_vaccinated dog) ((key, value) :: obj_extra dog).

(** What an object answers for a name that is not one of its fields.  This is
    decided by the base class of the validation library and by Python's
    [object], not by [main.py]: the name is unknown ([Absent]), is an
    attribute whose assignment raises ([Rejects]), or is an attribute whose
    assignment is accepted and leaves the six fields as they are
    ([Accepts]). *)
Inductive inherited : Type := Absent | Rejects | Accepts.

(** The base class, as far as [update_dog] meets it.  What was assigned to
    inherited names can break the object: [field_raises] tells, from those
    assignments, whether assigning to a field raises once the value is
    stored (the base class records the assigned field in state of its own,
    after storing), and [lookup_raises] whether looking up a name the object
    does not have raises instead of answering that it is missing. *)
Record base_class : Type := mkBase {
  inherits : string -> inherited;
  field_raises : list (string * string) -> field -> bool;
  lookup_raises : list (string * string) -> string -> bool
}.

Section Update.

(** The base class, taken as given. *)
Variable base : base_class.

(** [hasattr(current_dog, key)]; [None] when the lookup raises something
    other than [AttributeError], which [hasattr] lets through. *)
Definition hasattr (current_dog : DogObj) (key : string) : option bool :=
  match field_of key with
  | Some _ => Some true
  | None =>
      match inherits base key with
      | Absent =>
          if lookup_raises base (obj_extra current_dog) key then None else Some false
      | _ => Some true
      end
  end.

(** [[key for key in update_data.keys() if not hasattr(current_dog, key)]];
    [None] when a [hasattr] raises. *)
Fixpoint invalid_keys_of (current_dog : DogObj) (names : list string)
  : option (list string) :=
  match names with
  | [] => Some []
  | key :: rest =>
      match hasattr current_dog key with
      | None => None
      | Some has =>
          match invalid_keys_of current_dog rest with
          | None => None
          | Some invalid => Some (if has then invalid else key :: invalid)
          end
      end
  end.

(** [setattr(current_dog, key, value)]: the object afterwards, and whether
    the call returned ([false]: it raised).  A field takes the value in any
    case and the call raises afterwards on a broken object; an inherited
    name takes the value or raises with nothing stored. *)
Definition setattr (current_dog : DogObj) (key value : string) : DogObj * bool :=
  match field_of key with
  | Some f =>
      (set_field f value current_dog,
       negb (field_raises base (obj_extra current_dog) f))
  | None =>
      match inherits base key with
      | Accepts => (set_extra key value current_dog, true)
      | _ => (current_dog, false)
      end
  end.

(** The [for key, value in update_data.items()] loop.  The object it
    assigns to is the one the dict holds, so what it has assigned stays
    assigned when a later assignment raises: the loop returns the object
    as it stands and whether it ran to its end. *)
Fixpoint update_loop (items : list (string * option string)) (current_dog : DogObj)
  : DogObj * bool :=
  match items with
  | [] => (current_dog, true)
  | (key, value) :: rest =>
      match hasattr current_dog key with
      | None => (current_dog, false)
      | Some true =>
          match value with
          | Some v =>
              let (dog', returned) := setattr current_dog key v in
              if returned then update_loop rest dog' else (dog', false)
          | None => update_loop rest current_dog
          end
      | Some false => update_loop rest current_dog
      end
  end.

(** [PATCH /dog/{pk}] *)
Definition update_dog (pk0 : Z) (update_data : list (string * option string))
  (db : dict) : result DogObj * dict :=
  match dict_get pk0 db with
  | None => (Raise NotFound, db)
  | Some current_dog =>
      match invalid_keys_of current_dog (map fst update_data) with
      | None => (Raise Unhandled, db)
      | Some (key :: invalid) => (Raise (InvalidField (key :: invalid)), db)
      | Some [] =>
          let (dog', finished) := update_loop update_data current_dog in
          if finished then (Ok dog', dict_set pk0 dog' db)
          else (Raise Unhandled, dict_set pk0 dog' db)
      end
  end.

End Update.

(** The names a base class answers for in the examples, by kind. *)
Definition object_names (key : string) : inherited :=
  if String.eqb key "__class__" then Rejects
  else if String.eqb key "__dict__" then Rejects
  else Absent.

(** The least every Python object brings: [__class__] and [__dict__] are
    attributes of any instance, and assigning a [str] to either raises.  A
    real base class brings more names (its methods); the properties proved
    for an arbitrary [base] cover them.  No inherited name takes an
    assignment here, so no object is ever broken. *)
Definition object_base : base_class :=
  mkBase object_names (fun _ _ => false) (fun _ _ => false).

(** The base class of version 2 of the validation library at one more name:
    [__pydantic_fields_set__] is a slot of every model object, takes any
    value, and every later assignment to a field stores its value and then
    fails to record the field in what has replaced the set. *)
Definition pydantic_names (key : string) : inherited :=
  if String.eqb key "__pydantic_fields_set__" then Accepts else object_names key.

Definition pydantic_base : base_class :=
  mkBase pydantic_names
    (fun extra _ => existsb (fun e => String.eqb (fst e) "__pydantic_fields_set__") extra)
    (fun _ _ => false).

(** ** Sequences of requests *)

(** The requests that create and delete records. *)
Inductive request : Type :=
| Create (dog : Dog)
| Delete (pk0 : Z).

(** The identifier a [create_dog] answer carries. *)
Definition assigned_id (r : result DogObj) : option Z :=
  match r with
  | Ok stored => match obj_pk stored with Valid p => p | Str _ => None end
  | Raise _ => None
  end.

(** The identifiers assigned by the creates of a sequence of requests, in
    order, when the sequence is served from the store [db]. *)
Fixpoint created_ids (reqs : list request) (db : dict) : list (option Z) :=
  match reqs with
  | [] => []
  | Create dog :: rest =>
      assigned_id (fst (create_dog dog db)) :: created_ids rest (snd (create_dog dog db))
  | Delete k :: rest => created_ids rest (snd (delete_dog k db))
  end.

(** A create whose body carries no identifier, or a delete. *)
Definition omits_id (r : request) : bool :=
  match r with
  | Create dog => match pk dog with None => true | Some _ => false end
  | Delete _ => true
  end.

Definition creates (reqs : list request) : nat :=
  List.length (filter (fun r => match r with Create _ => true | Delete _ => false end) reqs).

(** [k] is the largest key of the store. *)
Definition largest (k : Z) (db : dict) : bool :=
  existsb (Z.eqb k) (keys db) && forallb (fun k' => k' <=? k) (keys db).

(** No delete of the sequence removes the record that holds the largest
    identifier at that moment. *)
Fixpoint spares_largest (reqs : list request) (db : dict) : bool :=
  match reqs with
  | [] => true
  | Create dog :: rest => spares_largest rest (snd (create_dog dog db))
  | Delete k :: rest =>
      negb (largest k db) && spares_largest rest (snd (delete_dog k db))
  end.

(** [first, first + 1, ...], [n] numbers. *)
Definition ids_from (first : nat) (n : nat) : list (option Z) :=
  map (fun i => Some (Z.of_nat i)) (seq first n).

(** ** Store properties used in the statements *)

(** Every stored object carries, as its [pk], the [int] key it is stored
    under. *)
Definition pk_intact (db : dict) : Prop :=
  forall k dog, In (k, dog) db -> obj_pk dog = Valid (Some k).

(** The largest of a non-empty list of keys, and the identifier after it. *)
Definition max_key (db : dict) : Z :=
  match keys db with
  | [] => 0
  | k :: ks => fold_left Z.max ks k
  end.

Definition next_id (db : dict) : Z :=
  match db with
  | [] => 1
  | _ :: _ => max_key db + 1
  end.

(** The body with another [pk]. *)
Definition with_pk (p : option Z) (dog : Dog) : Dog :=
  mkDog p (name dog) (kind dog) (age dog) (owner dog) (vaccinated dog).

(** The last non-null value an [update_dog] body gives for [key] (a dict
    binds a key once; the loop would let a later binding win). *)
Fixpoint patched (key : string) (update_data : list (string * option string))
  : option string :=
  match update_data with
  | [] => None
  | (key', value) :: rest =>
      match patched key rest with
      | Some v => Some v
      | None => if String.eqb key' key then value else None
      end
  end.

(** What a body all of whose keys are fields makes of the object
    [current]: each field holds the last non-null value the body gives for
    it, as the [str] it is, and is as it was when the body gives none; the
    inherited state is as it was. *)
Definition patched_from (update_data : list (string * option string))
  (current dog' : DogObj) : Prop :=
  obj_pk dog'
  = match patched "pk" update_data with Some v => Str v | None => obj_pk current end /\
  obj_name dog'
  = match patched "name" update_data with Some v => v | None => obj_name current end /\
  obj_kind dog'
  = match patched "kind" update_data with Some v => Str v | None => obj_kind current end /\
  obj_age dog'
  = match patched "age" update_data with Some v => Str v | None => obj_age current end /\
  obj_owner dog'
  = match patched "owner" update_data with Some v => Some v | None => obj_owner current end /\
  obj_vaccinated dog'
  = match patched "vaccinated" update_data with
    | Some v => Str v
    | None => obj_vaccinated current
    end /\
  obj_extra dog' = obj_extra current.

(** The name of each field. *)
Definition field_name (f : field) : string :=
  match f with
  | f_pk => "pk"
  | f_name => "name"
  | f_kind => "kind"
  | f_age => "age"
  | f_owner => "owner"
  | f_vaccinated => "vaccinated"
  end.

(** The store after [n] creates without identifier, when no delete took the
    newest record: the objects carry their keys, the keys lie in [1..n], and
    [n] itself is among them. *)
Definition served (n : nat) (db : dict) : Prop :=
  pk_intact db /\
  (forall k, In k (keys db) -> 1 <= k <= Z.of_nat n) /\
  ((0 < n)%nat -> In (Z.of_nat n) (keys db)).

(** ** Sample data *)

Definition rex : Dog := mkDog None "Rex" terrier None None false.
Definition bim : Dog := mkDog None "Bim" bulldog (Some 3) (Some "Ann") true.
Definition buddy : Dog := mkDog None "Buddy" bulldog None None true.

(** The store after [rex] was created in an empty one. *)
Definition db_rex : dict := snd (create_dog rex []).
(** The store after [rex] and then [bim] were created. *)
Definition db_rex_bim : dict := snd (create_dog bim db_rex).
(** The store after [rex] was created and [PATCH /dog/1] was served with
    the body [{"pk": "7"}]. *)
Definition db_rex_pk7 : dict :=
  snd (update_dog object_base 1 [("pk", Some "7")] db_rex).
(** The store after [rex] was created and [PATCH /dog/1] was served with
    the body [{"__pydantic_fields_set__": "x"}]. *)
Definition db_rex_broken : dict :=
  snd (update_dog pydantic_base 1 [("__pydantic_fields_set__", Some "x")] db_rex).
(** [rex] as it is stored there. *)
Definition rex_broken : DogObj :=
  set_extra "__pydantic_fields_set__" "x" (Dog_init 1 rex).

(** ** Sequences of writing requests *)

(** The three requests that write to the store. *)
Inductive call : Type :=
| CreateDog (dog : Dog)
| UpdateDog (pk0 : Z) (update_data : list (string * option string))
| DeleteDog (pk0 : Z).

Definition serve_call (base : base_class) (c : call) (db : dict)
  : result DogObj * dict :=
  match c with
  | CreateDog dog => create_dog dog db
  | UpdateDog pk0 update_data => update_dog base pk0 update_data db
  | DeleteDog pk0 => delete_dog pk0 db
  end.

(** The store after the calls were served one after the other, and the
    answer each one got. *)
Fixpoint store_after (base : base_class) (calls : list call) (db : dict)
  : dict :=
  match calls with
  | [] => db
  | c :: rest => store_after base rest (snd (serve_call base c db))
  end.

Fixpoint answers (base : base_class) (calls : list call) (db : dict)
  : list (result DogObj) :=
  match calls with
  | [] => []
  | c :: rest =>
      fst (serve_call base c db) :: answers base rest (snd (serve_call base c db))
  end.

(** The call is no update whose body gives a non-null value for ["pk"]. *)
Definition keeps_pk (c : call) : bool :=
  match c with
  | UpdateDog _ update_data =>
      match patched "pk" update_data with None => true | Some _ => false end
  | _ => true
  end.

(** A create that was answered with an exception. *)
Definition create_raised (ca : call * result DogObj) : bool :=
  match ca with
  | (CreateDog _, Raise _) => true
  | _ => false
  end.

(** The stored object carries its key as [pk], or a [str]. *)
Definition pk_key_or_str (db : dict) : Prop :=
  forall k dog, In (k, dog) db ->
    obj_pk dog = Valid (Some k) \/ exists s, obj_pk dog = Str s.

(** The entry of an [update_dog] body at which the loop raises: a non-null
    value for a name that is no field and whose assignment is rejected. *)
Definition raises_on (base : base_class) (entry : string * option string)
  : bool :=
  match entry with
  | (key, Some _) =>
      match field_of key, inherits base key with
      | None, Rejects => true
      | _, _ => false
      end
  | (_, None) => false
  end.

(** Every key of the body names an attribute of the object. *)
Definition all_attrs (base : base_class) (current : DogObj)
  (update_data : list (string * option string)) : Prop :=
  forall key, In key (map fst update_data) -> hasattr base current key = Some true.

(** Assigning to a field of the object does not raise: nothing that was
    assigned to its inherited names has broken it. *)
Definition sound (base : base_class) (dog : DogObj) : Prop :=
  forall f, field_raises base (obj_extra dog) f = false.

(** The keys of the body that the object has no attribute for, in the order
    of the body. *)
Definition lacking (base : base_class) (current : DogObj) (names : list string)
  : list string :=
  filter (fun key => match hasattr base current key with
                     | Some false => true
                     | _ => false
                     end) names.

(** Every key of the body is a field or an inherited name that rejects
    assignment. *)
Definition fields_or_rejected (base : base_class)
  (update_data : list (string * option string)) : Prop :=
  forall key, In key (map fst update_data) ->
    field_of key <> None \/ inherits base key = Rejects.

(** The [pk] attribute is an [int]. *)
Definition int_pk (dog : DogObj) : bool :=
  match obj_pk dog with
  | Valid (Some _) => true
  | _ => false
  end.

(** The body of [PATCH /dog/1] that sets the age and then assigns to
    [__class__]. *)
Definition age_then_class : list (string * option string) :=
  [("age", Some "5"); ("__class__", Some "x")].

(** * Properties *)

(** ** The dict operations *)

Lemma dict_get_set_same (k : Z) (v : DogObj) (d : dict) :
  dict_get k (dict_set k v d) = Some v.
Proof.
  induction d as [|[k' v'] d IH]; simpl.
  - now rewrite Z.eqb_refl.
  - destruct (k' =? k) eqn:E; simpl.
    + now rewrite Z.eqb_refl.
    + now rewrite E.
Qed.

Lemma dict_get_set_other (k k' : Z) (v : DogObj) (d : dict) :
  k' <> k -> dict_get k' (dict_set k v d) = dict_get k' d.
Proof.
  intros Hne. induction d as [|[k0 v0] d IH]; simpl.
  - destruct (k =? k') eqn:E; [apply Z.eqb_eq in E; congruence | reflexivity].
  - destruct (k0 =? k) eqn:E; simpl.
    + apply Z.eqb_eq in E. subst k0.
      destruct (k =? k') eqn:E'; [apply Z.eqb_eq in E'; congruence | reflexivity].
    + destruct (k0 =? k'); [reflexivity | exact IH].
Qed.

Lemma dict_get_del_same (k : Z) (d : dict) : dict_get k (dict_del k d) = None.
Proof.
  induction d as [|[k' v'] d IH]; simpl; [reflexivity|].
  destruct (k' =? k) eqn:E; simpl; [exact IH | now rewrite E].
Qed.

Lemma dict_get_del_other (k k' : Z) (d : dict) :
  k' <> k -> dict_get k' (dict_del k d) = dict_get k' d.
Proof.
  intros Hne. induction d as [|[k0 v0] d IH]; simpl; [reflexivity|].
  destruct (k0 =? k) eqn:E; simpl.
  - apply Z.eqb_eq in E. subst k0.
    destruct (k =? k') eqn:E'; [apply Z.eqb_eq in E'; congruence | exact IH].
  - destruct (k0 =? k'); [reflexivity | exact IH].
Qed.

Lemma dict_get_In (k : Z) (v : DogObj) (d : dict) :
  dict_get k d = Some v -> In (k, v) d.
Proof.
  induction d as [|[k' v'] d IH]; simpl; [discriminate|].
  destruct (k' =? k) eqn:E.
  - apply Z.eqb_eq in E. intros [= ->]. left. now subst.
  - intros H. right. now apply IH.
Qed.

Lemma dict_get_None_keys (k : Z) (d : dict) :
  dict_get k d = None <-> ~ In k (keys d).
Proof.
  induction d as [|[k' v'] d IH]; simpl.
  - tauto.
  - destruct (k' =? k) eqn:E.
    + apply Z.eqb_eq in E. split; [discriminate | intros H; exfalso; apply H; now left].
    + apply Z.eqb_neq in E. rewrite IH. tauto.
Qed.

Lemma In_dict_set (k k0 : Z) (v v0 : DogObj) (d : dict) :
  In (k, v) (dict_set k0 v0 d) -> (k, v) = (k0, v0) \/ In (k, v) d.
Proof.
  induction d as [|[k' v'] d IH]; simpl.
  - intros [H | []]. left. now symmetry.
  - destruct (k' =? k0); simpl.
    + intros [H | H]; [left; now symmetry | right; now right].
    + intros [H | H]; [right; now left |].
      destruct (IH H) as [H' | H']; [now left | right; now right].
Qed.

Lemma keys_dict_set_In (k : Z) (v : DogObj) (d : dict) :
  In k (keys (dict_set k v d)).
Proof.
  induction d as [|[k' v'] d IH]; simpl; [now left|].
  destruct (k' =? k) eqn:E; simpl; [now left | now right].
Qed.

Lemma keys_dict_set_incl (k k0 : Z) (v : DogObj) (d : dict) :
  In k (keys d) -> In k (keys (dict_set k0 v d)).
Proof.
  induction d as [|[k' v'] d IH]; simpl; [tauto|].
  destruct (k' =? k0) eqn:E; simpl.
  - apply Z.eqb_eq in E. subst. tauto.
  - tauto.
Qed.

Lemma In_dict_del (k k0 : Z) (v : DogObj) (d : dict) :
  In (k, v) (dict_del k0 d) <-> In (k, v) d /\ k <> k0.
Proof.
  unfold dict_del. rewrite filter_In. simpl.
  rewrite negb_true_iff, Z.eqb_neq. tauto.
Qed.

Lemma keys_dict_del (k k0 : Z) (d : dict) :
  In k (keys (dict_del k0 d)) <-> In k (keys d) /\ k <> k0.
Proof.
  unfold keys. rewrite !in_map_iff. split.
  - intros [[k' v] [<- H]]. apply In_dict_del in H. simpl.
    split; [exists (k', v); tauto | tauto].
  - intros [[[k' v] [<- H]] Hne]. exists (k', v). split; [reflexivity|].
    apply In_dict_del. tauto.
Qed.

(** The keys of a dict are distinct, and the handlers keep them so. *)
Lemma NoDup_keys_dict_set (k : Z) (v : DogObj) (d : dict) :
  NoDup (keys d) -> NoDup (keys (dict_set k v d)).
Proof.
  induction d as [|[k' v'] d IH]; simpl; intros H.
  - constructor; [tauto | constructor].
  - inversion H as [|? ? Hnin Hnd]; subst.
    destruct (k' =? k) eqn:E; simpl.
    + apply Z.eqb_eq in E. subst. now constructor.
    + apply Z.eqb_neq in E. constructor; [|now apply IH].
      intros Hin. apply Hnin. unfold keys in *.
      apply in_map_iff in Hin. destruct Hin as [[k0 v0] [Hk Hin]]. simpl in Hk. subst k0.
      destruct (In_dict_set _ _ _ _ _ Hin) as [Heq | Hold].
      * inversion Heq. congruence.
      * apply in_map_iff. now exists (k', v0).
Qed.

Lemma NoDup_keys_dict_del (k : Z) (d : dict) :
  NoDup (keys d) -> NoDup (keys (dict_del k d)).
Proof.
  induction d as [|[k' v'] d IH]; simpl; intros H; [constructor|].
  inversion H as [|? ? Hnin Hnd]; subst.
  destruct (k' =? k); simpl; [now apply IH|].
  constructor; [|now apply IH].
  intros Hin. apply keys_dict_del in Hin. tauto.
Qed.

(** ** The identifier [create_dog] computes *)

Lemma max_loop_int (ks : list Z) (m : Z) :
  max_loop (map (fun k => Valid (Some k)) ks) (Valid (Some m))
  = Some (Valid (Some (fold_left Z.max ks m))).
Proof.
  revert m. induction ks as [|k ks IH]; intros m; simpl; [reflexivity|].
  destruct (k >? m) eqn:E; rewrite IH; do 3 f_equal.
  - apply Z.gtb_lt in E. f_equal. lia.
  - rewrite Z.gtb_ltb in E. apply Z.ltb_ge in E. f_equal. lia.
Qed.

Lemma fold_left_max_ge (ks : list Z) (m : Z) :
  m <= fold_left Z.max ks m /\ forall k, In k ks -> k <= fold_left Z.max ks m.
Proof.
  revert m. induction ks as [|k ks IH]; intros m; simpl.
  - split; [lia | tauto].
  - destruct (IH (Z.max m k)) as [H1 H2]. split; [lia|].
    intros k' [<- | Hin]; [lia | now apply H2].
Qed.

Lemma fold_left_max_In (ks : list Z) (m : Z) :
  In (fold_left Z.max ks m) (m :: ks).
Proof.
  revert m. induction ks as [|k ks IH]; intros m; simpl; [now left|].
  destruct (IH (Z.max m k)) as [H | H]; [|auto].
  rewrite <- H. destruct (Z.max_spec m k) as [[_ E] | [_ E]]; rewrite E; auto.
Qed.

Lemma max_key_bound (db : dict) (n : Z) :
  In n (keys db) -> (forall k, In k (keys db) -> k <= n) -> max_key db = n.
Proof.
  unfold max_key. destruct (keys db) as [|k ks]; [intros []|].
  intros Hin Hle.
  pose proof (fold_left_max_In ks k) as Hm.
  pose proof (fold_left_max_ge ks k) as [H1 H2].
  apply Hle in Hm.
  destruct Hin as [<- | Hin]; [lia | apply H2 in Hin; lia].
Qed.

Lemma pk_intact_pks (db : dict) :
  pk_intact db -> map obj_pk (values db) = map (fun k => Valid (Some k)) (keys db).
Proof.
  unfold pk_intact, values, keys. induction db as [|[k v] db IH]; intros H; simpl.
  - reflexivity.
  - rewrite (H k v) by now left. f_equal. apply IH.
    intros k' v' Hin. apply H. now right.
Qed.

(** On a store whose objects carry their keys, a body without identifier
    gets one more than the largest key, or 1 in the empty store. *)
Lemma new_pk_intact (dog : Dog) (db : dict) :
  pk_intact db -> falsy (pk dog) = true -> new_pk dog db = Some (next_id db).
Proof.
  intros Hdb Hf. unfold new_pk, next_id. rewrite Hf.
  destruct db as [|[k v] db]; [reflexivity|].
  rewrite (pk_intact_pks _ Hdb). unfold max_key. simpl.
  now rewrite max_loop_int.
Qed.

(** Once the identifier is computed, [create_dog] stores the new object
    under it and answers with that object. *)
Lemma create_dog_stores (dog : Dog) (db : dict) (k : Z) :
  new_pk dog db = Some k ->
  create_dog dog db = (Ok (Dog_init k dog), dict_set k (Dog_init k dog) db).
Proof.
  intros H. unfold create_dog. rewrite H. now rewrite dict_get_set_same.
Qed.

Lemma create_dog_raises (dog : Dog) (db : dict) :
  new_pk dog db = None -> create_dog dog db = (Raise Unhandled, db).
Proof.
  intros H. unfold create_dog. now rewrite H.
Qed.

Lemma pk_intact_dict_set (k : Z) (dog : Dog) (db : dict) :
  pk_intact db -> pk_intact (dict_set k (Dog_init k dog) db).
Proof.
  intros H k' v Hin. destruct (In_dict_set _ _ _ _ _ Hin) as [E | Hold].
  - inversion E. reflexivity.
  - now apply H.
Qed.

Lemma pk_intact_dict_del (k : Z) (db : dict) :
  pk_intact db -> pk_intact (dict_del k db).
Proof.
  intros H k' v Hin. apply In_dict_del in Hin. now apply H.
Qed.

Lemma delete_dog_store (k : Z) (db : dict) :
  snd (delete_dog k db) = dict_del k db.
Proof.
  unfold delete_dog. destruct (dict_get k db) eqn:E; simpl; [reflexivity|].
  apply dict_get_None_keys in E. unfold dict_del.
  induction db as [|[k' v'] db IH]; simpl; [reflexivity|].
  simpl in E. destruct (k' =? k) eqn:E'.
  - apply Z.eqb_eq in E'. tauto.
  - simpl. f_equal. apply IH. tauto.
Qed.

(** ** Identifiers assigned along a sequence of creates and deletes *)

Lemma served_next_id (n : nat) (db : dict) :
  served n db -> next_id db = Z.of_nat (S n).
Proof.
  intros (_ & Hb & Hn). unfold next_id. destruct db as [|[k v] db].
  - destruct n; [reflexivity|]. destruct Hn; lia.
  - assert (0 < n)%nat as Hpos.
    { specialize (Hb k (or_introl eq_refl)). lia. }
    rewrite (max_key_bound _ (Z.of_nat n)); [lia | now apply Hn |].
    intros k' Hin. now apply Hb.
Qed.

Lemma served_create (n : nat) (db : dict) (dog : Dog) :
  served n db ->
  served (S n) (dict_set (Z.of_nat (S n)) (Dog_init (Z.of_nat (S n)) dog) db).
Proof.
  intros (Hi & Hb & Hn). split; [now apply pk_intact_dict_set | split].
  - intros k Hk. unfold keys in Hk. apply in_map_iff in Hk.
    destruct Hk as [[k' v] [<- Hin]]. simpl.
    destruct (In_dict_set _ _ _ _ _ Hin) as [E | Hold].
    + inversion E. lia.
    + assert (In k' (keys db)) as Hk by (apply in_map_iff; now exists (k', v)).
      apply Hb in Hk. lia.
  - intros _. apply keys_dict_set_In.
Qed.

Lemma served_largest (n : nat) (db : dict) :
  served n db -> (0 < n)%nat -> largest (Z.of_nat n) db = true.
Proof.
  intros (_ & Hb & Hn) Hpos. unfold largest. apply andb_true_iff. split.
  - apply existsb_exists. exists (Z.of_nat n). split; [now apply Hn | apply Z.eqb_refl].
  - apply forallb_forall. intros k Hk. apply Z.leb_le. now apply Hb.
Qed.

Lemma served_delete (n : nat) (db : dict) (k : Z) :
  served n db -> largest k db = false -> served n (dict_del k db).
Proof.
  intros Hs Hl. pose proof Hs as (Hi & Hb & Hn).
  split; [now apply pk_intact_dict_del | split].
  - intros k' Hk. apply keys_dict_del in Hk. apply Hb. tauto.
  - intros Hpos. apply keys_dict_del. split; [now apply Hn|].
    intros <-. rewrite (served_largest _ _ Hs Hpos) in Hl. discriminate.
Qed.

Lemma created_ids_served (reqs : list request) :
  forall (n : nat) (db : dict),
    served n db ->
    forallb omits_id reqs = true ->
    spares_largest reqs db = true ->
    created_ids reqs db = ids_from (S n) (creates reqs).
Proof.
  induction reqs as [|[dog | k] reqs IH]; intros n db Hs Ho Hsp.
  - reflexivity.
  - simpl in Ho. apply andb_true_iff in Ho. destruct Ho as [Hdog Ho].
    destruct (pk dog) eqn:Hpk; [discriminate|].
    assert (new_pk dog db = Some (Z.of_nat (S n))) as Hnew.
    { rewrite new_pk_intact; [now rewrite (served_next_id n) | apply Hs | now rewrite Hpk]. }
    simpl in Hsp |- *. rewrite (create_dog_stores _ _ _ Hnew) in *. simpl in *.
    unfold creates, ids_from. simpl. f_equal.
    apply IH; [now apply served_create | exact Ho | exact Hsp].
  - simpl in Ho, Hsp |- *. apply andb_true_iff in Hsp. destruct Hsp as [Hl Hsp].
    apply negb_true_iff in Hl. rewrite delete_dog_store in *.
    unfold creates. simpl. apply IH; [now apply served_delete | exact Ho | exact Hsp].
Qed.

(** C1, as the specification states it, at the requests "create, create,
    delete 2, create": every create omits the identifier, and the third one
    is given the identifier 2 a second time, where the claim promises 3. *)
Lemma created_ids_reuse :
  forallb omits_id [Create rex; Create bim; Delete 2; Create buddy] = true /\
  created_ids [Create rex; Create bim; Delete 2; Create buddy] []
  = [Some 1; Some 2; Some 2] /\
  created_ids [Create rex; Create bim; Delete 2; Create buddy] []
  <> ids_from 1 (creates [Create rex; Create bim; Delete 2; Create buddy]).
Proof.
  split; [reflexivity | split; [reflexivity | discriminate]].
Qed.

(** C1 (amended): served from the empty store, a sequence of creates that
    omit the identifier and of deletes none of which removes the record
    holding the largest identifier assigns the identifiers 1, 2, 3, ... in
    order, one per create. *)
Theorem created_ids_consecutive (reqs : list request) :
  forallb omits_id reqs = true ->
  spares_largest reqs [] = true ->
  created_ids reqs [] = ids_from 1 (creates reqs).
Proof.
  apply created_ids_served. split; [| split].
  - intros k dog [].
  - intros k [].
  - intros H. inversion H.
Qed.

Lemma created_ids_consecutive_witness :
  forallb omits_id [Create rex; Create bim; Delete 1; Create buddy] = true /\
  spares_largest [Create rex; Create bim; Delete 1; Create buddy] [] = true /\
  created_ids [Create rex; Create bim; Delete 1; Create buddy] []
  = [Some 1; Some 2; Some 3].
Proof.
  split; [reflexivity | split; [reflexivity |]].
  exact (created_ids_consecutive
           [Create rex; Create bim; Delete 1; Create buddy] eq_refl eq_refl).
Defined.

(** ** [update_dog]: which bodies are refused *)

Section UpdateProperties.

Variable base : base_class.

Lemma invalid_keys_of_lacking (current : DogObj) (names : list string) :
  forall invalid,
    invalid_keys_of base current names = Some invalid ->
    invalid = lacking base current names /\
    forall key, In key names -> hasattr base current key <> None.
Proof.
  induction names as [|key rest IH]; simpl; intros invalid H.
  - injection H as <-. split; [reflexivity | intros key []].
  - destruct (hasattr base current key) as [has|] eqn:Hkey; [|discriminate].
    destruct (invalid_keys_of base current rest) as [l|]; [|discriminate].
    destruct (IH l eq_refl) as [-> Hrest]. injection H as <-. split.
    + now destruct has.
    + intros k [<- | Hin]; [congruence | now apply Hrest].
Qed.

Lemma invalid_keys_of_answered (current : DogObj) (names : list string) :
  (forall key, In key names -> hasattr base current key <> None) ->
  invalid_keys_of base current names = Some (lacking base current names).
Proof.
  induction names as [|key rest IH]; simpl; intros H; [reflexivity|].
  destruct (hasattr base current key) as [has|] eqn:Hkey.
  - rewrite IH by (intros k Hin; apply H; now right). now destruct has.
  - exfalso. apply (H key); [now left | exact Hkey].
Qed.

(** X1: [update_dog] raises [InvalidField] exactly when the record exists,
    [hasattr] answers for every key of the body and answers false for at
    least one; the error lists the keys it is false for, each as often as
    the body has it and in the order of the body, and the store is left as
    it was. *)
Theorem update_dog_InvalidField (pk0 : Z) (update_data : list (string * option string))
  (db : dict) :
  (forall invalid db',
      update_dog base pk0 update_data db = (Raise (InvalidField invalid), db') ->
      db' = db /\ invalid <> [] /\
      exists current,
        dict_get pk0 db = Some current /\
        (forall key, In key (map fst update_data) -> hasattr base current key <> None) /\
        invalid = lacking base current (map fst update_data)) /\
  (forall current,
      dict_get pk0 db = Some current ->
      (forall key, In key (map fst update_data) -> hasattr base current key <> None) ->
      lacking base current (map fst update_data) <> [] ->
      update_dog base pk0 update_data db
      = (Raise (InvalidField (lacking base current (map fst update_data))), db)).
Proof.
  unfold update_dog. split.
  - intros invalid db'. destruct (dict_get pk0 db) as [current|] eqn:Hget;
      [|discriminate].
    destruct (invalid_keys_of base current (map fst update_data)) as [[|key0 ks]|] eqn:Hf;
      [| |discriminate].
    + destruct (update_loop base update_data current) as [dog' []]; discriminate.
    + intros [= <- <-]. split; [reflexivity | split; [discriminate|]].
      exists current. destruct (invalid_keys_of_lacking _ _ _ Hf) as [E Hans].
      now split; [| split].
  - intros current Hget Hans Hlack. rewrite Hget.
    rewrite (invalid_keys_of_answered _ _ Hans).
    now destruct (lacking base current (map fst update_data)).
Qed.

(** A key that [update_dog] refuses is not one of the six fields. *)
Lemma hasattr_field (current : DogObj) (key : string) :
  hasattr base current key = Some false -> field_of key = None.
Proof.
  unfold hasattr. destruct (field_of key); [discriminate | reflexivity].
Qed.

End UpdateProperties.

Lemma update_dog_InvalidField_witness :
  dict_get 1 db_rex_bim = Some (Dog_init 1 rex) /\
  lacking object_base (Dog_init 1 rex)
    (map fst [("colour", Some "black"); ("age", Some "5"); ("breed", None)])
  = ["colour"; "breed"] /\
  update_dog object_base 1 [("colour", Some "black"); ("age", Some "5"); ("breed", None)]
    db_rex_bim
  = (Raise (InvalidField ["colour"; "breed"]), db_rex_bim).
Proof.
  split; [reflexivity | split; [reflexivity|]].
  apply (proj2 (update_dog_InvalidField object_base 1
                  [("colour", Some "black"); ("age", Some "5"); ("breed", None)]
                  db_rex_bim) (Dog_init 1 rex) eq_refl).
  - intros key [<- | [<- | [<- | []]]]; discriminate.
  - discriminate.
Defined.

(** C2, at the body [{"__class__": null}] for the record 1: the key names
    none of the six fields, yet every object has an attribute of that name,
    so [update_dog] does not raise [InvalidField]; it answers with the
    record. *)
Lemma update_dog_accepts_dunder_class :
  field_of "__class__" = None /\
  update_dog object_base 1 [("__class__", None)] db_rex = (Ok (Dog_init 1 rex), db_rex).
Proof.
  split; reflexivity.
Qed.

(** C3, after [rex] was created and the body [{"pk": "7"}] patched record 1:
    the object stored under the key 1 carries the [str] ["7"] as its [pk]. *)
Lemma update_dog_overwrites_pk :
  db_rex = [(1, Dog_init 1 rex)] /\
  update_dog object_base 1 [("pk", Some "7")] db_rex
  = (Ok (set_field f_pk "7" (Dog_init 1 rex)), [(1, set_field f_pk "7" (Dog_init 1 rex))]) /\
  obj_pk (set_field f_pk "7" (Dog_init 1 rex)) = Str "7".
Proof.
  repeat split.
Qed.

(** C5, on the store where record 1 was patched with [{"pk": "7"}]: a
    create without identifier raises (the largest [pk] is a [str], and
    adding 1 to it is a [TypeError]) and stores nothing. *)
Lemma create_dog_raises_after_pk_patch :
  pk bim = None /\
  create_dog bim db_rex_pk7 = (Raise Unhandled, db_rex_pk7).
Proof.
  split; reflexivity.
Qed.

(** ** Search by name *)

Lemma filter_nil_iff {A : Type} (f : A -> bool) (l : list A) :
  filter f l = [] <-> forall x, In x l -> f x = false.
Proof.
  induction l as [|a l IH]; simpl.
  - split; [intros _ x [] | reflexivity].
  - destruct (f a) eqn:E.
    + split; [discriminate|]. intros H. specialize (H a (or_introl eq_refl)). congruence.
    + rewrite IH. split.
      * intros H x [<- | Hin]; [exact E | now apply H].
      * intros H x Hin. apply H. now right.
Qed.

Section Search.

(** [str.lower], taken as given, and what is known of it: on ASCII text it
    folds the letters A to Z and nothing else. *)
Variable str_lower : string -> string.
Hypothesis str_lower_ascii : forall s, ascii_only s = true -> str_lower s = lower s.

Lemma search_dog_by_name_lower (name0 name1 : string) (db : dict) :
  str_lower name1 = str_lower name0 ->
  search_dog_by_name str_lower name1 db = search_dog_by_name str_lower name0 db.
Proof.
  intros E. unfold search_dog_by_name. now rewrite E.
Qed.

(** C4: [search_dog_by_name] answers with the records whose name equals the
    query once [str.lower] is applied to both; it raises [NotFound] exactly
    when no record is such, and raises nothing else; two queries with the
    same lower-cased form get the same answer, so two ASCII queries that
    differ in the case of their letters only do, as ["Rex"] and ["rex"]. *)
Theorem search_dog_by_name_spec (name0 : string) (db : dict) :
  (forall found, search_dog_by_name str_lower name0 db = Ok found ->
     forall dog, In dog found <->
                 In dog (root db) /\ str_lower (obj_name dog) = str_lower name0) /\
  (search_dog_by_name str_lower name0 db = Raise NotFound <->
     forall dog, In dog (root db) -> str_lower (obj_name dog) <> str_lower name0) /\
  (forall e, search_dog_by_name str_lower name0 db = Raise e -> e = NotFound) /\
  (forall name1, str_lower name1 = str_lower name0 ->
     search_dog_by_name str_lower name1 db = search_dog_by_name str_lower name0 db) /\
  (forall name1, ascii_only name0 = true -> ascii_only name1 = true ->
     lower name1 = lower name0 ->
     search_dog_by_name str_lower name1 db = search_dog_by_name str_lower name0 db) /\
  search_dog_by_name str_lower "Rex" db = search_dog_by_name str_lower "rex" db.
Proof.
  split; [| split; [| split; [| split; [| split]]]].
  - unfold search_dog_by_name, root.
    set (f := fun dog => String.eqb (str_lower (obj_name dog)) (str_lower name0)).
    intros found Hfound dog.
    destruct (filter f (values db)) as [|dog0 rest] eqn:E; [discriminate|].
    injection Hfound as <-. rewrite <- E, filter_In. unfold f.
    now rewrite String.eqb_eq.
  - unfold search_dog_by_name, root.
    set (f := fun dog => String.eqb (str_lower (obj_name dog)) (str_lower name0)).
    split.
    + intros Hraise dog Hin.
      destruct (filter f (values db)) eqn:E; [|discriminate].
      apply String.eqb_neq. exact (proj1 (filter_nil_iff f _) E dog Hin).
    + intros Hnone. destruct (filter f (values db)) as [|dog0 rest] eqn:E; [reflexivity|].
      exfalso. assert (In dog0 (filter f (values db))) as Hd by (rewrite E; now left).
      apply filter_In in Hd. destruct Hd as [Hin Hf].
      apply (Hnone dog0 Hin). now apply String.eqb_eq.
  - unfold search_dog_by_name. intros e.
    destruct (filter _ (values db)); [now intros [= <-] | discriminate].
  - intros name1 E. apply (search_dog_by_name_lower _ _ db E).
  - intros name1 H0 H1 E. apply search_dog_by_name_lower.
    now rewrite (str_lower_ascii _ H0), (str_lower_ascii _ H1).
  - apply search_dog_by_name_lower.
    now rewrite (str_lower_ascii "Rex" eq_refl), (str_lower_ascii "rex" eq_refl).
Qed.

End Search.

Lemma search_dog_by_name_spec_witness :
  (forall s, ascii_only s = true -> lower s = lower s) /\
  search_dog_by_name lower "REX" db_rex_bim = Ok [Dog_init 1 rex] /\
  search_dog_by_name lower "rex" db_rex_bim = search_dog_by_name lower "REX" db_rex_bim /\
  search_dog_by_name lower "Rex" db_rex_bim = search_dog_by_name lower "rex" db_rex_bim /\
  search_dog_by_name lower "Max" db_rex_bim = Raise NotFound.
Proof.
  split; [reflexivity | split; [reflexivity | split; [| split; [| reflexivity]]]].
  - exact (proj1 (proj2 (proj2 (proj2 (proj2
             (search_dog_by_name_spec lower (fun s _ => eq_refl) "REX" db_rex_bim)))))
             "rex" eq_refl eq_refl eq_refl).
  - exact (proj2 (proj2 (proj2 (proj2 (proj2
             (search_dog_by_name_spec lower (fun s _ => eq_refl) "REX" db_rex_bim)))))).
Defined.

(** ** Delete *)

(** C7: for an identifier present in the store, [delete_dog] answers with
    the record [get_dog_by_pk] found there before, removes it (afterwards
    [get_dog_by_pk] raises [NotFound] for it) and keeps every other record;
    for an absent identifier it raises [NotFound] and the store stays as it
    was. *)
Theorem delete_dog_spec (pk0 : Z) (db : dict) :
  (In pk0 (keys db) ->
   exists deleted,
     get_dog_by_pk pk0 db = Ok deleted /\
     delete_dog pk0 db = (Ok deleted, dict_del pk0 db) /\
     get_dog_by_pk pk0 (snd (delete_dog pk0 db)) = Raise NotFound /\
     ~ In pk0 (keys (snd (delete_dog pk0 db))) /\
     forall k, k <> pk0 ->
       get_dog_by_pk k (snd (delete_dog pk0 db)) = get_dog_by_pk k db) /\
  (~ In pk0 (keys db) -> delete_dog pk0 db = (Raise NotFound, db)).
Proof.
  unfold delete_dog, get_dog_by_pk. split.
  - intros Hin. destruct (dict_get pk0 db) as [deleted|] eqn:E.
    + exists deleted. simpl. repeat split.
      * now rewrite dict_get_del_same.
      * apply dict_get_None_keys, dict_get_del_same.
      * intros k Hk. now rewrite dict_get_del_other.
    + apply dict_get_None_keys in E. tauto.
  - intros Hnin. apply dict_get_None_keys in Hnin. now rewrite Hnin.
Qed.

Lemma delete_dog_spec_witness :
  In 1 (keys db_rex_bim) /\
  (exists deleted,
     get_dog_by_pk 1 db_rex_bim = Ok deleted /\
     delete_dog 1 db_rex_bim = (Ok deleted, dict_del 1 db_rex_bim) /\
     get_dog_by_pk 1 (snd (delete_dog 1 db_rex_bim)) = Raise NotFound /\
     ~ In 1 (keys (snd (delete_dog 1 db_rex_bim))) /\
     forall k, k <> 1 ->
       get_dog_by_pk k (snd (delete_dog 1 db_rex_bim)) = get_dog_by_pk k db_rex_bim) /\
  ~ In 5 (keys db_rex_bim) /\
  delete_dog 5 db_rex_bim = (Raise NotFound, db_rex_bim).
Proof.
  assert (In 1 (keys db_rex_bim)) as H1 by (simpl; tauto).
  assert (~ In 5 (keys db_rex_bim)) as H5 by (simpl; intros [H | [H | []]]; discriminate).
  split; [exact H1 | split; [| split; [exact H5 |]]].
  - exact (proj1 (delete_dog_spec 1 db_rex_bim) H1).
  - exact (proj2 (delete_dog_spec 5 db_rex_bim) H5).
Defined.

(** ** Create *)

(** [create_dog] either raises [Unhandled] and stores nothing, or stores
    the new object and answers with it. *)
Lemma create_dog_cases (dog : Dog) (db : dict) :
  (new_pk dog db = None /\ create_dog dog db = (Raise Unhandled, db)) \/
  (exists k, new_pk dog db = Some k /\
             create_dog dog db = (Ok (Dog_init k dog), dict_set k (Dog_init k dog) db)).
Proof.
  destruct (new_pk dog db) as [k|] eqn:E.
  - right. exists k. split; [reflexivity | now apply create_dog_stores].
  - left. split; [reflexivity | now apply create_dog_raises].
Qed.

(** A body that carries an identifier other than 0 is stored under it. *)
Lemma new_pk_given (dog : Dog) (db : dict) :
  falsy (pk dog) = false -> exists k, pk dog = Some k /\ new_pk dog db = Some k.
Proof.
  unfold new_pk. intros H. rewrite H. destruct (pk dog) as [k|]; [|discriminate].
  now exists k.
Qed.

(** C8: when [create_dog] answers with a record, [get_dog_by_pk] called with
    the identifier of that record answers with the same record, whose fields
    other than [pk] are those of the body; and [create_dog] does answer with
    a record when the body carries an identifier or the stored objects carry
    their keys. *)
Theorem create_then_get (dog : Dog) (db : dict) :
  (forall stored db',
     create_dog dog db = (Ok stored, db') ->
     exists k,
       assigned_id (Ok stored) = Some k /\
       get_dog_by_pk k db' = Ok stored /\
       obj_name stored = name dog /\
       obj_kind stored = Valid (kind dog) /\
       obj_age stored = Valid (age dog) /\
       obj_owner stored = owner dog /\
       obj_vaccinated stored = Valid (vaccinated dog)) /\
  (falsy (pk dog) = false \/ pk_intact db ->
   exists stored db', create_dog dog db = (Ok stored, db')).
Proof.
  split.
  - intros stored db' H.
    destruct (create_dog_cases dog db) as [[_ E] | [k [_ E]]]; rewrite E in H.
    + discriminate.
    + injection H as <- <-. exists k. unfold get_dog_by_pk.
      rewrite dict_get_set_same. repeat split.
  - intros H.
    assert (exists k, new_pk dog db = Some k) as [k Hk].
    { destruct (falsy (pk dog)) eqn:F.
      - destruct H as [H | H]; [discriminate|].
        exists (next_id db). now apply new_pk_intact.
      - destruct (new_pk_given dog db F) as [k [_ Hk]]. now exists k. }
    rewrite (create_dog_stores _ _ _ Hk). eauto.
Qed.

Lemma create_then_get_witness :
  create_dog buddy db_rex_bim
  = (Ok (Dog_init 3 buddy), (db_rex_bim ++ [(3, Dog_init 3 buddy)])%list) /\
  (exists k,
     assigned_id (Ok (Dog_init 3 buddy)) = Some k /\
     get_dog_by_pk k (db_rex_bim ++ [(3, Dog_init 3 buddy)])%list = Ok (Dog_init 3 buddy) /\
     obj_name (Dog_init 3 buddy) = name buddy /\
     obj_kind (Dog_init 3 buddy) = Valid (kind buddy) /\
     obj_age (Dog_init 3 buddy) = Valid (age buddy) /\
     obj_owner (Dog_init 3 buddy) = owner buddy /\
     obj_vaccinated (Dog_init 3 buddy) = Valid (vaccinated buddy)).
Proof.
  split; [reflexivity|].
  exact (proj1 (create_then_get buddy db_rex_bim) _ _ eq_refl).
Defined.

(** C10, on the store where record 1 was patched with [{"pk": "7"}]: a
    create whose body carries the identifier 0 raises, as the create
    without identifier does there, and assigns no identifier. *)
Lemma create_dog_pk_zero_raises :
  pk (with_pk (Some 0) bim) = Some 0 /\
  create_dog (with_pk (Some 0) bim) db_rex_pk7 = (Raise Unhandled, db_rex_pk7) /\
  assigned_id (fst (create_dog (with_pk (Some 0) bim) db_rex_pk7)) = None.
Proof.
  repeat split.
Qed.

(** X22: a body that carries the identifier 0 is created as the same body
    without identifier is, in every store; on a store whose objects carry
    their keys this is under one more than the largest key, or under 1 when
    the store is empty, and never under the 0 supplied unless that is the
    number so computed. *)
Theorem create_dog_pk_zero (dog : Dog) (db : dict) :
  create_dog (with_pk (Some 0) dog) db = create_dog (with_pk None dog) db /\
  (pk_intact db ->
   create_dog (with_pk (Some 0) dog) db
   = (Ok (Dog_init (next_id db) dog), dict_set (next_id db) (Dog_init (next_id db) dog) db)).
Proof.
  split; [reflexivity|].
  intros H.
  exact (create_dog_stores (with_pk (Some 0) dog) db (next_id db)
           (new_pk_intact (with_pk (Some 0) dog) db H eq_refl)).
Qed.

Lemma pk_intact_db_rex_bim : pk_intact db_rex_bim.
Proof.
  intros k dog [H | [H | []]]; inversion H; reflexivity.
Defined.

Lemma create_dog_pk_zero_witness :
  create_dog (with_pk (Some 0) buddy) [] = (Ok (Dog_init 1 buddy), [(1, Dog_init 1 buddy)]) /\
  create_dog (with_pk (Some 0) buddy) db_rex_bim = create_dog buddy db_rex_bim /\
  create_dog (with_pk (Some 0) buddy) db_rex_bim
  = (Ok (Dog_init 3 buddy), (db_rex_bim ++ [(3, Dog_init 3 buddy)])%list).
Proof.
  split; [reflexivity | split].
  - exact (proj1 (create_dog_pk_zero buddy db_rex_bim)).
  - exact (proj2 (create_dog_pk_zero buddy db_rex_bim) pk_intact_db_rex_bim).
Defined.

(** ** Filter by kind *)



(** ** [update_dog]: which fields change *)

Lemma field_of_name (key : string) (f : field) :
  field_of key = Some f -> key = field_name f.
Proof.
  unfold field_of.
  repeat match goal with
         | |- context [String.eqb key ?s] =>
             destruct (String.eqb_spec key s) as [-> | _]; [now intros [= <-]|]
         end.
  discriminate.
Qed.

Section UpdateFields.

Variable base : base_class.

Lemma hasattr_of_field (current : DogObj) (key : string) :
  field_of key <> None -> hasattr base current key = Some true.
Proof.
  unfold hasattr. now destruct (field_of key).
Qed.

Lemma sound_set_field (f : field) (v : string) (current : DogObj) :
  sound base current -> sound base (set_field f v current).
Proof.
  unfold sound. now destruct f.
Qed.

(** On an object that assignment to a field does not break, and a body whose
    keys are all fields, the loop runs to its end and leaves the object
    described by [patched_from]. *)
Lemma update_loop_fields (update_data : list (string * option string)) :
  forall current : DogObj,
    sound base current ->
    (forall key, In key (map fst update_data) -> field_of key <> None) ->
    exists dog',
      update_loop base update_data current = (dog', true) /\
      patched_from update_data current dog'.
Proof.
  induction update_data as [|[key value] rest IH]; intros current Hs Hall.
  - exists current. split; [reflexivity | repeat split].
  - assert (field_of key <> None) as Hkey by (apply Hall; now left).
    assert (forall key', In key' (map fst rest) -> field_of key' <> None) as Hrest
        by (intros key' Hin; apply Hall; now right).
    simpl. rewrite (hasattr_of_field current key Hkey).
    destruct (field_of key) as [f|] eqn:Hf; [clear Hkey | congruence].
    unfold setattr. rewrite Hf, (Hs f). simpl.
    apply field_of_name in Hf. subst key.
    destruct value as [v|].
    + destruct (IH (set_field f v current) (sound_set_field f v current Hs) Hrest)
        as [dog' [Hloop Hp]].
      exists dog'. split; [exact Hloop|].
      unfold patched_from in *. destruct Hp as (H1 & H2 & H3 & H4 & H5 & H6 & H7).
      destruct f; simpl;
        destruct (patched "pk" rest), (patched "name" rest), (patched "kind" rest),
                 (patched "age" rest), (patched "owner" rest),
                 (patched "vaccinated" rest);
        simpl in *; repeat split; assumption.
    + destruct (IH current Hs Hrest) as [dog' [Hloop Hp]].
      exists dog'. split; [exact Hloop|].
      unfold patched_from in *. destruct Hp as (H1 & H2 & H3 & H4 & H5 & H6 & H7).
      destruct f; simpl;
        destruct (patched "pk" rest), (patched "name" rest), (patched "kind" rest),
                 (patched "age" rest), (patched "owner" rest),
                 (patched "vaccinated" rest);
        simpl in *; repeat split; assumption.
Qed.

Lemma no_invalid_keys (current : DogObj) (update_data : list (string * option string)) :
  all_attrs base current update_data ->
  invalid_keys_of base current (map fst update_data) = Some [].
Proof.
  intros H. rewrite invalid_keys_of_answered.
  - f_equal. apply filter_nil_iff. intros key Hin. now rewrite (H key Hin).
  - intros key Hin. now rewrite (H key Hin).
Qed.

Lemma all_attrs_fields (current : DogObj) (update_data : list (string * option string)) :
  (forall key, In key (map fst update_data) -> field_of key <> None) ->
  all_attrs base current update_data.
Proof.
  intros H key Hin. now apply hasattr_of_field, H.
Qed.

(** X23: for an existing record that assignment to a field does not break
    and a body whose keys are all fields, [update_dog] answers with the
    record in which each field that the body gives a non-null value holds
    that value and every other field is as it was (a null entry changes
    nothing); the store holds that record under the same identifier, and
    every other record is as it was. *)
Theorem update_dog_fields (pk0 : Z) (update_data : list (string * option string))
  (db : dict) (current : DogObj) :
  dict_get pk0 db = Some current ->
  sound base current ->
  (forall key, In key (map fst update_data) -> field_of key <> None) ->
  exists dog',
    update_dog base pk0 update_data db = (Ok dog', dict_set pk0 dog' db) /\
    patched_from update_data current dog' /\
    get_dog_by_pk pk0 (dict_set pk0 dog' db) = Ok dog' /\
    forall k, k <> pk0 ->
      get_dog_by_pk k (dict_set pk0 dog' db) = get_dog_by_pk k db.
Proof.
  intros Hget Hs Hall.
  destruct (update_loop_fields update_data current Hs Hall) as [dog' [Hloop Hp]].
  exists dog'. unfold update_dog, get_dog_by_pk. rewrite Hget.
  rewrite (no_invalid_keys _ _ (all_attrs_fields current update_data Hall)).
  rewrite Hloop, dict_get_set_same.
  split; [reflexivity | split; [exact Hp | split; [reflexivity|]]].
  intros k Hk. now rewrite dict_get_set_other.
Qed.

End UpdateFields.

Lemma sound_object_base (dog : DogObj) : sound object_base dog.
Proof.
  intros f. reflexivity.
Defined.

Lemma update_dog_fields_witness :
  dict_get 2 db_rex_bim = Some (Dog_init 2 bim) /\
  sound object_base (Dog_init 2 bim) /\
  exists dog',
    update_dog object_base 2 [("age", Some "5"); ("owner", None)] db_rex_bim
    = (Ok dog', dict_set 2 dog' db_rex_bim) /\
    patched_from [("age", Some "5"); ("owner", None)] (Dog_init 2 bim) dog' /\
    get_dog_by_pk 2 (dict_set 2 dog' db_rex_bim) = Ok dog' /\
    forall k, k <> 2 ->
      get_dog_by_pk k (dict_set 2 dog' db_rex_bim) = get_dog_by_pk k db_rex_bim.
Proof.
  split; [reflexivity | split; [exact (sound_object_base _)|]].
  apply (update_dog_fields object_base 2 [("age", Some "5"); ("owner", None)]
           db_rex_bim (Dog_init 2 bim) eq_refl (sound_object_base _)).
  intros key [<- | [<- | []]]; discriminate.
Defined.

(** C6, on the store where record 1 was patched with
    [{"__pydantic_fields_set__": "x"}], a key that [hasattr] lets through:
    the body [{"age": "5", "name": "Bob"}] has only fields as keys, yet the
    first assignment raises once the age is stored, the name is never
    assigned, and the request ends in an exception. *)
Lemma update_dog_fields_broken :
  update_dog pydantic_base 1 [("__pydantic_fields_set__", Some "x")] db_rex
  = (Ok rex_broken, db_rex_broken) /\
  field_of "age" = Some f_age /\ field_of "name" = Some f_name /\
  update_dog pydantic_base 1 [("age", Some "5"); ("name", Some "Bob")] db_rex_broken
  = (Raise Unhandled, [(1, set_field f_age "5" rex_broken)]) /\
  obj_name (set_field f_age "5" rex_broken) = "Rex".
Proof.
  repeat split.
Qed.

(** The body [{"age": "5"}] changes the age of record 2 and nothing else. *)
Example update_dog_age_only :
  update_dog object_base 2 [("age", Some "5")] db_rex_bim
  = (Ok (mkObj (Valid (Some 2)) "Bim" (Valid bulldog) (Str "5") (Some "Ann") (Valid true) []),
     [(1, Dog_init 1 rex);
      (2, mkObj (Valid (Some 2)) "Bim" (Valid bulldog) (Str "5") (Some "Ann") (Valid true) [])]).
Proof.
  reflexivity.
Qed.

(** ** What the handlers keep *)

(** The store [update_dog] leaves: the one it found, or that one with the
    object of the loop written back under the same key. *)
Lemma update_dog_store (base : base_class) (pk0 : Z)
  (update_data : list (string * option string)) (db : dict) :
  snd (update_dog base pk0 update_data db) = db \/
  exists current,
    dict_get pk0 db = Some current /\
    snd (update_dog base pk0 update_data db)
    = dict_set pk0 (fst (update_loop base update_data current)) db.
Proof.
  unfold update_dog. destruct (dict_get pk0 db) as [current|]; [|now left].
  destruct (invalid_keys_of base current (map fst update_data)) as [[|key invalid]|];
    [| now left | now left].
  right. exists current. split; [reflexivity|].
  now destruct (update_loop base update_data current) as [dog' []].
Qed.

(** A body that gives no non-null value for ["pk"] leaves the [pk] of the
    object alone, whatever its other keys are and wherever the loop ends. *)
Lemma update_loop_keeps_pk (base : base_class)
  (update_data : list (string * option string)) :
  forall current : DogObj,
    patched "pk" update_data = None ->
    obj_pk (fst (update_loop base update_data current)) = obj_pk current.
Proof.
  induction update_data as [|[key value] rest IH]; intros current Hp; [reflexivity|].
  simpl in Hp. destruct (patched "pk" rest) eqn:Hrest; [discriminate|].
  simpl. destruct (hasattr base current key) as [[|]|]; [| now apply IH | reflexivity].
  destruct value as [v|]; [|now apply IH].
  unfold setattr. destruct (field_of key) as [f|] eqn:Hf.
  - apply field_of_name in Hf. subst key.
    destruct (negb (field_raises base (obj_extra current) f)).
    + rewrite IH by reflexivity. destruct f; [discriminate | reflexivity ..].
    + destruct f; [discriminate | reflexivity ..].
  - destruct (inherits base key); [reflexivity | reflexivity |].
    now rewrite IH.
Qed.

(** X2: the keys of the store are distinct, and every handler that writes
    keeps them so. *)
Theorem handlers_keep_keys_distinct (base : base_class) (db : dict) :
  NoDup (keys db) ->
  (forall dog, NoDup (keys (snd (create_dog dog db)))) /\
  (forall pk0 update_data, NoDup (keys (snd (update_dog base pk0 update_data db)))) /\
  (forall pk0, NoDup (keys (snd (delete_dog pk0 db)))).
Proof.
  intros H. repeat split.
  - intros dog. destruct (create_dog_cases dog db) as [[_ E] | [k [_ E]]]; rewrite E; simpl.
    + exact H.
    + now apply NoDup_keys_dict_set.
  - intros pk0 update_data.
    destruct (update_dog_store base pk0 update_data db) as [E | [current [_ E]]];
      rewrite E; [exact H | now apply NoDup_keys_dict_set].
  - intros pk0. rewrite delete_dog_store. now apply NoDup_keys_dict_del.
Qed.

Lemma handlers_keep_keys_distinct_witness :
  NoDup (keys db_rex_bim) /\
  (forall dog, NoDup (keys (snd (create_dog dog db_rex_bim)))) /\
  (forall pk0 update_data,
     NoDup (keys (snd (update_dog object_base pk0 update_data db_rex_bim)))) /\
  (forall pk0, NoDup (keys (snd (delete_dog pk0 db_rex_bim)))).
Proof.
  assert (NoDup (keys db_rex_bim)) as H.
  { repeat constructor; simpl; [intros [E | []]; discriminate | tauto]. }
  split; [exact H | exact (handlers_keep_keys_distinct object_base db_rex_bim H)].
Defined.

(** X3: every stored object carries its key as [pk] for as long as no
    [update_dog] body gives a non-null value for ["pk"]: [create_dog] and
    [delete_dog] keep it so, and so does [update_dog] on such a body. *)
Theorem handlers_keep_pk_intact (base : base_class) (db : dict) :
  pk_intact db ->
  (forall dog, pk_intact (snd (create_dog dog db))) /\
  (forall pk0 update_data,
     patched "pk" update_data = None ->
     pk_intact (snd (update_dog base pk0 update_data db))) /\
  (forall pk0, pk_intact (snd (delete_dog pk0 db))).
Proof.
  intros H. repeat split.
  - intros dog. destruct (create_dog_cases dog db) as [[_ E] | [k [_ E]]]; rewrite E; simpl.
    + exact H.
    + now apply pk_intact_dict_set.
  - intros pk0 update_data Hp.
    destruct (update_dog_store base pk0 update_data db) as [E | [current [Hget E]]];
      rewrite E; [exact H|].
    intros k dog Hin. destruct (In_dict_set _ _ _ _ _ Hin) as [Heq | Hold].
    + inversion Heq. subst. rewrite update_loop_keeps_pk by exact Hp.
      apply H. now apply dict_get_In.
    + now apply H.
  - intros pk0. rewrite delete_dog_store. now apply pk_intact_dict_del.
Qed.

Lemma handlers_keep_pk_intact_witness :
  pk_intact db_rex_bim /\
  patched "pk" [("age", Some "5"); ("pk", None)] = None /\
  pk_intact (snd (create_dog buddy db_rex_bim)) /\
  pk_intact (snd (update_dog object_base 2 [("age", Some "5"); ("pk", None)] db_rex_bim)) /\
  pk_intact (snd (delete_dog 1 db_rex_bim)).
Proof.
  pose proof (handlers_keep_pk_intact object_base db_rex_bim pk_intact_db_rex_bim)
    as (Hc & Hu & Hd).
  split; [exact pk_intact_db_rex_bim | split; [reflexivity | split; [| split]]].
  - exact (Hc buddy).
  - exact (Hu 2 [("age", Some "5"); ("pk", None)] eq_refl).
  - exact (Hd 1).
Defined.

(** X4: on a store whose objects carry their keys, [create_dog] given a
    body without identifier (or with the identifier 0) stores the
    field-by-field copy under one more than the largest key, or under 1 in
    the empty store, answers with that copy, and raises nothing. *)
Theorem create_dog_fresh (dog : Dog) (db : dict) :
  pk_intact db ->
  falsy (pk dog) = true ->
  create_dog dog db
  = (Ok (Dog_init (next_id db) dog), dict_set (next_id db) (Dog_init (next_id db) dog) db) /\
  (forall k, In k (keys db) -> k < next_id db) /\
  get_dog_by_pk (next_id db) (snd (create_dog dog db)) = Ok (Dog_init (next_id db) dog).
Proof.
  intros H F. rewrite (create_dog_stores dog db (next_id db) (new_pk_intact dog db H F)).
  split; [reflexivity | split].
  - intros k Hin. unfold next_id, max_key. destruct db as [|[k0 v0] db]; [destruct Hin|].
    simpl in *. pose proof (fold_left_max_ge (keys db) k0) as [H1 H2].
    destruct Hin as [<- | Hin]; [lia | apply H2 in Hin; lia].
  - simpl. unfold get_dog_by_pk. now rewrite dict_get_set_same.
Qed.

Lemma create_dog_fresh_witness :
  pk_intact db_rex_bim /\
  falsy (pk buddy) = true /\
  create_dog buddy db_rex_bim
  = (Ok (Dog_init 3 buddy), dict_set 3 (Dog_init 3 buddy) db_rex_bim) /\
  (forall k, In k (keys db_rex_bim) -> k < 3) /\
  get_dog_by_pk 3 (snd (create_dog buddy db_rex_bim)) = Ok (Dog_init 3 buddy).
Proof.
  split; [exact pk_intact_db_rex_bim | split; [reflexivity|]].
  exact (create_dog_fresh buddy db_rex_bim pk_intact_db_rex_bim eq_refl).
Defined.

(** The scenario of the specification: [buddy] is created in the empty
    store and gets the identifier 1, no terrier is found, the delete of 1
    answers with the record, and 1 is not found afterwards. *)
Example buddy_scenario :
  create_dog buddy []
  = (Ok (mkObj (Valid (Some 1)) "Buddy" (Valid bulldog) (Valid None) None (Valid true) []),
     [(1, Dog_init 1 buddy)]) /\
  get_dogs terrier [(1, Dog_init 1 buddy)] = [] /\
  delete_dog 1 [(1, Dog_init 1 buddy)] = (Ok (Dog_init 1 buddy), []) /\
  get_dog_by_pk 1 [] = Raise NotFound.
Proof.
  repeat split.
Qed.

(** * Further properties of the handlers *)

(** ** More on the dict operations *)

Lemma dict_set_fresh (k : Z) (v : DogObj) (d : dict) :
  ~ In k (keys d) -> dict_set k v d = (d ++ [(k, v)])%list.
Proof.
  induction d as [|[k' v'] d IH]; simpl; intros H; [reflexivity|].
  destruct (k' =? k) eqn:E.
  - apply Z.eqb_eq in E. tauto.
  - f_equal. apply IH. tauto.
Qed.

Lemma keys_dict_set_present (k : Z) (v : DogObj) (d : dict) :
  In k (keys d) -> keys (dict_set k v d) = keys d.
Proof.
  induction d as [|[k' v'] d IH]; simpl; intros H; [destruct H|].
  destruct (k' =? k) eqn:E; simpl.
  - apply Z.eqb_eq in E. now subst.
  - apply Z.eqb_neq in E. f_equal. apply IH. tauto.
Qed.

Lemma length_dict_set_present (k : Z) (v : DogObj) (d : dict) :
  In k (keys d) -> List.length (dict_set k v d) = List.length d.
Proof.
  intros H. rewrite <- (length_map fst (dict_set k v d)), <- (length_map fst d).
  fold (keys (dict_set k v d)) (keys d). now rewrite keys_dict_set_present.
Qed.

Lemma dict_del_absent (k : Z) (d : dict) :
  ~ In k (keys d) -> dict_del k d = d.
Proof.
  induction d as [|[k' v'] d IH]; simpl; intros H; [reflexivity|].
  destruct (k' =? k) eqn:E; simpl.
  - apply Z.eqb_eq in E. tauto.
  - f_equal. apply IH. tauto.
Qed.

Lemma dict_del_set_fresh (k : Z) (v : DogObj) (d : dict) :
  ~ In k (keys d) -> dict_del k (dict_set k v d) = d.
Proof.
  intros H. rewrite (dict_set_fresh _ _ _ H). unfold dict_del.
  rewrite filter_app. simpl. rewrite Z.eqb_refl. simpl. rewrite app_nil_r.
  now apply dict_del_absent.
Qed.

Lemma dict_set_same (k : Z) (v : DogObj) (d : dict) :
  dict_get k d = Some v -> dict_set k v d = d.
Proof.
  induction d as [|[k' v'] d IH]; simpl; [discriminate|].
  destruct (k' =? k) eqn:E.
  - apply Z.eqb_eq in E. intros [= ->]. now subst.
  - intros H. f_equal. now apply IH.
Qed.


Lemma In_keys (k : Z) (v : DogObj) (d : dict) : In (k, v) d -> In k (keys d).
Proof.
  intros H. unfold keys. apply in_map_iff. now exists (k, v).
Qed.

Lemma dict_get_NoDup (k : Z) (v : DogObj) (d : dict) :
  NoDup (keys d) -> In (k, v) d -> dict_get k d = Some v.
Proof.
  induction d as [|[k' v'] d IH]; simpl; intros Hnd Hin; [destruct Hin|].
  inversion Hnd as [|? ? Hnin Hnd']; subst.
  destruct Hin as [[= -> ->] | Hin].
  - now rewrite Z.eqb_refl.
  - destruct (k' =? k) eqn:E.
    + apply Z.eqb_eq in E. subst. apply In_keys in Hin. tauto.
    + now apply IH.
Qed.

Lemma dict_get_Some_keys (k : Z) (d : dict) :
  In k (keys d) -> exists v, dict_get k d = Some v.
Proof.
  intros H. destruct (dict_get k d) as [v|] eqn:E; [now exists v|].
  apply dict_get_None_keys in E. tauto.
Qed.

(** ** Create with an identifier in the body *)

(** X5: a body that carries an identifier other than 0 is stored under that
    identifier in every store, and nothing is raised; a record already
    stored under it is replaced where it stands, without an error, and
    otherwise the new record comes last; every other record stays as it
    was. *)
Theorem create_dog_given_pk (dog : Dog) (db : dict) (k : Z) :
  pk dog = Some k ->
  k <> 0 ->
  create_dog dog db = (Ok (Dog_init k dog), dict_set k (Dog_init k dog) db) /\
  (In k (keys db) ->
   keys (snd (create_dog dog db)) = keys db /\
   List.length (root (snd (create_dog dog db))) = List.length (root db)) /\
  (~ In k (keys db) ->
   snd (create_dog dog db) = (db ++ [(k, Dog_init k dog)])%list /\
   root (snd (create_dog dog db)) = (root db ++ [Dog_init k dog])%list) /\
  (forall k', k' <> k ->
     get_dog_by_pk k' (snd (create_dog dog db)) = get_dog_by_pk k' db).
Proof.
  intros Hpk Hk.
  assert (new_pk dog db = Some k) as Hnew.
  { unfold new_pk. rewrite Hpk. simpl. apply Z.eqb_neq in Hk. now rewrite Hk. }
  rewrite (create_dog_stores _ _ _ Hnew). simpl.
  split; [reflexivity | split; [| split]].
  - intros Hin. split; [now apply keys_dict_set_present|].
    unfold root, values. rewrite !length_map. now apply length_dict_set_present.
  - intros Hnin. rewrite (dict_set_fresh _ _ _ Hnin). split; [reflexivity|].
    unfold root, values. now rewrite map_app.
  - intros k' Hk'. unfold get_dog_by_pk. now rewrite dict_get_set_other.
Qed.

Lemma create_dog_given_pk_witness :
  pk (with_pk (Some 1) buddy) = Some 1 /\
  1 <> 0 /\
  create_dog (with_pk (Some 1) buddy) db_rex_bim
  = (Ok (Dog_init 1 buddy), [(1, Dog_init 1 buddy); (2, Dog_init 2 bim)]) /\
  create_dog (with_pk (Some (-4)) buddy) db_rex_bim
  = (Ok (Dog_init (-4) buddy),
     [(1, Dog_init 1 rex); (2, Dog_init 2 bim); (-4, Dog_init (-4) buddy)]).
Proof.
  assert (1 <> 0) as H1 by discriminate.
  split; [reflexivity | split; [exact H1 | split]].
  - exact (proj1 (create_dog_given_pk (with_pk (Some 1) buddy) db_rex_bim 1 eq_refl H1)).
  - reflexivity.
Defined.

(** ** Create and delete as a round trip *)

(** X6: when [create_dog] answers with a record whose identifier was not in
    the store before, deleting that identifier next answers with the same
    record and gives back the store as it was before the create.  On a
    store whose objects carry their keys this is so for every body without
    identifier. *)
Theorem create_then_delete (dog : Dog) (db : dict) :
  (forall k, new_pk dog db = Some k -> ~ In k (keys db) ->
     delete_dog k (snd (create_dog dog db)) = (Ok (Dog_init k dog), db)) /\
  (pk_intact db -> falsy (pk dog) = true ->
     delete_dog (next_id db) (snd (create_dog dog db))
     = (Ok (Dog_init (next_id db) dog), db)).
Proof.
  assert (forall k, new_pk dog db = Some k -> ~ In k (keys db) ->
            delete_dog k (snd (create_dog dog db)) = (Ok (Dog_init k dog), db)) as Hgen.
  { intros k Hnew Hnin. rewrite (create_dog_stores _ _ _ Hnew). simpl.
    unfold delete_dog. rewrite dict_get_set_same. now rewrite dict_del_set_fresh. }
  split; [exact Hgen|].
  intros Hi Hf. apply Hgen; [now apply new_pk_intact|].
  intros Hin. unfold next_id, max_key in *. destruct db as [|[k0 v0] db]; [destruct Hin|].
  simpl in *. pose proof (fold_left_max_ge (keys db) k0) as [H1 H2].
  destruct Hin as [E | Hin]; [lia | apply H2 in Hin; lia].
Qed.

Lemma create_then_delete_witness :
  new_pk (with_pk (Some 9) buddy) db_rex_bim = Some 9 /\
  ~ In 9 (keys db_rex_bim) /\
  delete_dog 9 (snd (create_dog (with_pk (Some 9) buddy) db_rex_bim))
  = (Ok (Dog_init 9 buddy), db_rex_bim) /\
  delete_dog 3 (snd (create_dog buddy db_rex_bim)) = (Ok (Dog_init 3 buddy), db_rex_bim).
Proof.
  assert (~ In 9 (keys db_rex_bim)) as H9
      by (simpl; intros [H | [H | []]]; discriminate).
  split; [reflexivity | split; [exact H9 | split]].
  - exact (proj1 (create_then_delete (with_pk (Some 9) buddy) db_rex_bim) 9 eq_refl H9).
  - exact (proj2 (create_then_delete buddy db_rex_bim) pk_intact_db_rex_bim eq_refl).
Defined.

(** ** Delete and the listing *)

(** X7: in a store with distinct keys, [delete_dog] takes out the one entry
    of the identifier and leaves the others in their order. *)
Theorem delete_dog_entry (pk0 : Z) (deleted : DogObj) (before after : dict) :
  NoDup (keys (before ++ (pk0, deleted) :: after)%list) ->
  delete_dog pk0 (before ++ (pk0, deleted) :: after)%list
  = (Ok deleted, (before ++ after)%list) /\
  root (snd (delete_dog pk0 (before ++ (pk0, deleted) :: after)%list))
  = (root before ++ root after)%list.
Proof.
  intros Hnd.
  assert (~ In pk0 (keys before) /\ ~ In pk0 (keys after)) as [Hb Ha].
  { unfold keys in *. rewrite map_app in Hnd. simpl in Hnd.
    apply NoDup_remove_2 in Hnd. rewrite in_app_iff in Hnd. tauto. }
  assert (delete_dog pk0 (before ++ (pk0, deleted) :: after)%list
          = (Ok deleted, (before ++ after)%list)) as E.
  { unfold delete_dog.
    rewrite (dict_get_NoDup pk0 deleted) by (auto; apply in_elt).
    unfold dict_del. rewrite filter_app. simpl. rewrite Z.eqb_refl. simpl.
    fold (dict_del pk0 before) (dict_del pk0 after).
    now rewrite !dict_del_absent. }
  rewrite E. split; [reflexivity|]. simpl. unfold root, values. apply map_app.
Qed.

Lemma delete_dog_entry_witness :
  NoDup (keys ([(1, Dog_init 1 rex)] ++ (2, Dog_init 2 bim) :: [(3, Dog_init 3 buddy)])%list) /\
  delete_dog 2 ([(1, Dog_init 1 rex)] ++ (2, Dog_init 2 bim) :: [(3, Dog_init 3 buddy)])%list
  = (Ok (Dog_init 2 bim), [(1, Dog_init 1 rex); (3, Dog_init 3 buddy)]).
Proof.
  assert (NoDup (keys ([(1, Dog_init 1 rex)] ++ (2, Dog_init 2 bim)
                         :: [(3, Dog_init 3 buddy)])%list)) as H.
  { repeat constructor; simpl; intuition discriminate. }
  split; [exact H|].
  exact (proj1 (delete_dog_entry 2 (Dog_init 2 bim) [(1, Dog_init 1 rex)]
                  [(3, Dog_init 3 buddy)] H)).
Defined.

(** ** When [create_dog] raises *)

Lemma max_loop_all_int (items : list (attr (option Z))) :
  forall (maxitem : attr (option Z)) (z : Z),
    max_loop items maxitem = Some (Valid (Some z)) ->
    forallb (fun a => match a with Valid (Some _) => true | _ => false end)
      (maxitem :: items) = true.
Proof.
  induction items as [|item items IH]; intros maxitem z H; simpl in *.
  - now injection H as ->.
  - destruct item as [[x|]|s], maxitem as [[y|]|t]; simpl in *; try discriminate.
    + destruct (x >? y); apply IH in H; simpl in H; exact H.
    + destruct (String.ltb t s); apply IH in H; simpl in H; discriminate.
Qed.

Lemma max_loop_of_int (items : list (attr (option Z))) :
  forall maxitem : attr (option Z),
    forallb (fun a => match a with Valid (Some _) => true | _ => false end)
      (maxitem :: items) = true ->
    exists z, max_loop items maxitem = Some (Valid (Some z)).
Proof.
  induction items as [|item items IH]; intros maxitem H; simpl in *.
  - destruct maxitem as [[y|]|t]; try discriminate. now exists y.
  - destruct maxitem as [[y|]|t]; try discriminate.
    destruct item as [[x|]|s]; try discriminate. simpl in *.
    destruct (x >? y); apply IH; exact H.
Qed.

Lemma new_pk_None_iff (dog : Dog) (db : dict) :
  new_pk dog db = None <->
  falsy (pk dog) = true /\ existsb (fun d => negb (int_pk d)) (values db) = true.
Proof.
  unfold new_pk. destruct (falsy (pk dog)) eqn:F.
  - destruct db as [|[k v] db].
    + simpl. split; [discriminate | intros [_ H]; discriminate].
    + set (pks := map obj_pk (values ((k, v) :: db))).
      assert (existsb (fun d => negb (int_pk d)) (values ((k, v) :: db))
              = negb (forallb (fun a => match a with Valid (Some _) => true | _ => false end)
                        pks)) as ->.
      { unfold pks, int_pk. generalize (values ((k, v) :: db)).
        intros l. induction l as [|d l IHl]; simpl; [reflexivity|].
        rewrite IHl. now rewrite negb_andb. }
      destruct pks as [|item items] eqn:Ei; [discriminate|]. unfold py_max.
      destruct (max_loop items item) as [[[z|]|s]|] eqn:Em.
      * apply max_loop_all_int in Em. rewrite Em. simpl.
        split; [discriminate | intros [_ H]; discriminate].
      * destruct (forallb _ (item :: items)) eqn:Ef;
          [apply max_loop_of_int in Ef; destruct Ef as [z Ez]; congruence|].
        simpl. split; [now intros _ | reflexivity].
      * destruct (forallb _ (item :: items)) eqn:Ef;
          [apply max_loop_of_int in Ef; destruct Ef as [z Ez]; congruence|].
        simpl. split; [now intros _ | reflexivity].
      * destruct (forallb _ (item :: items)) eqn:Ef;
          [apply max_loop_of_int in Ef; destruct Ef as [z Ez]; congruence|].
        simpl. split; [now intros _ | reflexivity].
  - destruct (pk dog); [|discriminate].
    split; [discriminate | intros [H _]; discriminate].
Qed.

(** X8: [create_dog] raises exactly when the body carries no identifier (or
    0) and some stored record has a [pk] that is not an [int]; what it
    raises is no [HTTPException], and the store is left as it was.  In
    every other case it answers with the stored record. *)
Theorem create_dog_raises_iff (dog : Dog) (db : dict) :
  ((exists e, fst (create_dog dog db) = Raise e) <->
   falsy (pk dog) = true /\ existsb (fun d => negb (int_pk d)) (values db) = true) /\
  (forall e, fst (create_dog dog db) = Raise e ->
     e = Unhandled /\ snd (create_dog dog db) = db) /\
  ((exists stored, fst (create_dog dog db) = Ok stored) <->
   falsy (pk dog) = false \/ forallb int_pk (values db) = true).
Proof.
  assert (existsb (fun d => negb (int_pk d)) (values db)
          = negb (forallb int_pk (values db))) as Hneg.
  { induction (values db) as [|d l IHl]; simpl; [reflexivity|].
    rewrite IHl. now rewrite negb_andb. }
  pose proof (new_pk_None_iff dog db) as Hnone.
  destruct (create_dog_cases dog db) as [[Hn E] | [k [Hn E]]]; rewrite E; cbn [fst snd].
  - apply Hnone in Hn. destruct Hn as [Hf Hex]. split; [| split].
    + split; [intros _; now split | intros _; now exists Unhandled].
    + intros e [= <-]. now split.
    + split; [intros [stored H]; discriminate|].
      rewrite Hneg in Hex. apply negb_true_iff in Hex.
      intros [H | H]; congruence.
  - split; [| split].
    + split; [intros [e H]; discriminate|].
      intros H. apply Hnone in H. congruence.
    + intros e H. discriminate.
    + split; [| intros _; now eexists].
      intros _. destruct (falsy (pk dog)) eqn:Hf; [right | now left].
      apply not_false_iff_true. intros Hall.
      assert (new_pk dog db = None) as Hc; [|congruence].
      apply Hnone. split; [reflexivity|]. now rewrite Hneg, Hall.
Qed.

Lemma create_dog_raises_iff_witness :
  (exists e, fst (create_dog bim db_rex_pk7) = Raise e) /\
  (exists stored, fst (create_dog (with_pk (Some 5) bim) db_rex_pk7) = Ok stored).
Proof.
  split.
  - apply (proj2 (proj1 (create_dog_raises_iff bim db_rex_pk7))). now split.
  - apply (proj2 (proj2 (proj2 (create_dog_raises_iff (with_pk (Some 5) bim) db_rex_pk7)))).
    now left.
Defined.

(** ** The outcomes of [update_dog] *)

Section UpdateOutcomes.

Variable base : base_class.

Lemma hasattr_rejected (current : DogObj) (key : string) :
  field_of key = None -> inherits base key = Rejects ->
  hasattr base current key = Some true.
Proof.
  intros Hf Hr. unfold hasattr. now rewrite Hf, Hr.
Qed.

Lemma all_attrs_fields_or_rejected (current : DogObj)
  (update_data : list (string * option string)) :
  fields_or_rejected base update_data -> all_attrs base current update_data.
Proof.
  intros H key Hin. destruct (H key Hin) as [Hf | Hr].
  - now apply hasattr_of_field.
  - unfold hasattr. destruct (field_of key); [reflexivity | now rewrite Hr].
Qed.

(** On an object that assignment to a field does not break, and a body whose
    keys are fields or names that reject assignment, the loop runs to its
    end exactly when no entry raises. *)
Lemma update_loop_finished (update_data : list (string * option string)) :
  forall current : DogObj,
    sound base current ->
    fields_or_rejected base update_data ->
    snd (update_loop base update_data current)
    = negb (existsb (raises_on base) update_data).
Proof.
  induction update_data as [|[key value] rest IH]; intros current Hs Hall; [reflexivity|].
  assert (fields_or_rejected base rest) as Hrest
      by (intros k Hin; apply Hall; now right).
  simpl. rewrite (all_attrs_fields_or_rejected current _ Hall key) by now left.
  destruct value as [v|]; [|now apply IH].
  unfold setattr. destruct (field_of key) as [f|] eqn:Hf.
  - rewrite (Hs f). simpl. apply IH; [now apply sound_set_field | exact Hrest].
  - destruct (Hall key (or_introl eq_refl)) as [Hc | Hr]; [congruence|].
    now rewrite Hr.
Qed.

Lemma update_loop_app (a b : list (string * option string)) :
  forall current : DogObj,
    update_loop base (a ++ b) current
    = if snd (update_loop base a current)
      then update_loop base b (fst (update_loop base a current))
      else update_loop base a current.
Proof.
  induction a as [|[key value] a IH]; intros current; [reflexivity|].
  simpl. destruct (hasattr base current key) as [[|]|]; [| apply IH | reflexivity].
  destruct value as [v|]; [|apply IH].
  destruct (setattr base current key v) as [dog' []]; [apply IH | reflexivity].
Qed.

(** X9: [update_dog] raises [NotFound] exactly when the identifier is not in
    the store, whatever the body is (an unknown key in the body is not
    looked at then), and leaves the store as it was.  For a record that
    exists and that assignment to a field does not break, and a body whose
    keys are fields or inherited names that reject assignment, it raises an
    exception that is no [HTTPException] exactly when the body gives a
    non-null value to one of the rejecting names, and answers with the
    record otherwise. *)
Theorem update_dog_outcome (pk0 : Z) (update_data : list (string * option string))
  (db : dict) :
  (fst (update_dog base pk0 update_data db) = Raise NotFound <-> ~ In pk0 (keys db)) /\
  (~ In pk0 (keys db) -> update_dog base pk0 update_data db = (Raise NotFound, db)) /\
  (forall current,
     dict_get pk0 db = Some current ->
     sound base current ->
     fields_or_rejected base update_data ->
     (fst (update_dog base pk0 update_data db) = Raise Unhandled <->
      existsb (raises_on base) update_data = true) /\
     ((exists dog', fst (update_dog base pk0 update_data db) = Ok dog') <->
      existsb (raises_on base) update_data = false)).
Proof.
  unfold update_dog. destruct (dict_get pk0 db) as [current|] eqn:Hget.
  - assert (In pk0 (keys db)) as Hin.
    { destruct (in_dec Z.eq_dec pk0 (keys db)) as [H | H]; [exact H|].
      apply dict_get_None_keys in H. congruence. }
    split; [| split; [tauto|]].
    + split; [| tauto].
      destruct (invalid_keys_of base current (map fst update_data)) as [[|key invalid]|];
        [| discriminate | discriminate].
      destruct (update_loop base update_data current) as [dog' []]; discriminate.
    + intros current' [= <-] Hs Hall.
      rewrite (no_invalid_keys _ _ _ (all_attrs_fields_or_rejected current _ Hall)).
      pose proof (update_loop_finished update_data current Hs Hall) as Hfin.
      destruct (update_loop base update_data current) as [dog' finished].
      simpl in Hfin. subst finished.
      destruct (existsb (raises_on base) update_data); simpl.
      * split; [tauto | split; [intros [d H]; discriminate | discriminate]].
      * split; [split; discriminate | split; [reflexivity | now eexists]].
  - apply dict_get_None_keys in Hget.
    split; [tauto | split; [reflexivity | discriminate]].
Qed.

(** X10: [update_dog] is not atomic.  On a record that assignment to a
    field does not break, when the body gives values to fields and then a
    non-null value to a name that rejects assignment, the request ends in
    an exception and yet the store holds the record with the fields before
    that entry already overwritten. *)
Theorem update_dog_not_atomic (pk0 : Z) (before after : list (string * option string))
  (key v : string) (db : dict) (current : DogObj) :
  dict_get pk0 db = Some current ->
  sound base current ->
  (forall k, In k (map fst before) -> field_of k <> None) ->
  field_of key = None ->
  inherits base key = Rejects ->
  all_attrs base current after ->
  exists dog',
    update_dog base pk0 (before ++ (key, Some v) :: after) db
    = (Raise Unhandled, dict_set pk0 dog' db) /\
    patched_from before current dog' /\
    get_dog_by_pk pk0 (dict_set pk0 dog' db) = Ok dog'.
Proof.
  intros Hget Hs Hbefore Hkey Hrej Hafter.
  destruct (update_loop_fields base before current Hs Hbefore) as [dog' [Hloop Hp]].
  exists dog'. unfold update_dog, get_dog_by_pk. rewrite Hget.
  rewrite no_invalid_keys.
  - rewrite update_loop_app, Hloop. simpl.
    rewrite (hasattr_rejected dog' key Hkey Hrej). unfold setattr. rewrite Hkey, Hrej.
    rewrite dict_get_set_same. now split.
  - intros k Hin. rewrite map_app in Hin. apply in_app_iff in Hin.
    destruct Hin as [Hin | [<- | Hin]].
    + now apply hasattr_of_field, Hbefore.
    + now apply hasattr_rejected.
    + now apply Hafter.
Qed.


(** X12: a body that gives no non-null value (the empty body among them)
    and whose keys all name attributes changes nothing: the answer is the
    stored record and the store is the one before. *)
Theorem update_dog_null_body (pk0 : Z) (update_data : list (string * option string))
  (db : dict) (current : DogObj) :
  dict_get pk0 db = Some current ->
  all_attrs base current update_data ->
  (forall key value, In (key, value) update_data -> value = None) ->
  update_dog base pk0 update_data db = (Ok current, db).
Proof.
  intros Hget Hall Hnull. unfold update_dog. rewrite Hget, (no_invalid_keys _ _ _ Hall).
  assert (update_loop base update_data current = (current, true)) as ->.
  { induction update_data as [|[key value] rest IH]; [reflexivity|].
    simpl. rewrite (Hnull key value) by now left.
    rewrite (Hall key) by now left.
    apply IH.
    - intros k Hin. apply Hall. now right.
    - intros k v' Hin. apply (Hnull k v'). now right. }
  now rewrite dict_set_same.
Qed.


End UpdateOutcomes.

Lemma update_dog_outcome_witness :
  ~ In 9 (keys db_rex_bim) /\
  update_dog object_base 9 [("colour", Some "black")] db_rex_bim
  = (Raise NotFound, db_rex_bim) /\
  dict_get 1 db_rex_bim = Some (Dog_init 1 rex) /\
  fields_or_rejected object_base age_then_class /\
  fst (update_dog object_base 1 age_then_class db_rex_bim) = Raise Unhandled.
Proof.
  assert (~ In 9 (keys db_rex_bim)) as H9
      by (simpl; intros [H | [H | []]]; discriminate).
  assert (fields_or_rejected object_base age_then_class) as Ha.
  { intros key [<- | [<- | []]]; [left; discriminate | right; reflexivity]. }
  split; [exact H9 | split; [| split; [reflexivity | split; [exact Ha |]]]].
  - exact (proj1 (proj2 (update_dog_outcome object_base 9 [("colour", Some "black")]
                           db_rex_bim)) H9).
  - exact (proj2 (proj1 (proj2 (proj2 (update_dog_outcome object_base 1 age_then_class
                                          db_rex_bim))
                           (Dog_init 1 rex) eq_refl (sound_object_base _) Ha)) eq_refl).
Defined.

Lemma update_dog_not_atomic_witness :
  dict_get 1 db_rex = Some (Dog_init 1 rex) /\
  sound object_base (Dog_init 1 rex) /\
  field_of "__class__" = None /\
  inherits object_base "__class__" = Rejects /\
  exists dog',
    update_dog object_base 1 ([("age", Some "5")] ++ ("__class__", Some "x") :: [])%list db_rex
    = (Raise Unhandled, dict_set 1 dog' db_rex) /\
    patched_from [("age", Some "5")] (Dog_init 1 rex) dog' /\
    get_dog_by_pk 1 (dict_set 1 dog' db_rex) = Ok dog'.
Proof.
  split; [reflexivity | split; [exact (sound_object_base _) |
    split; [reflexivity | split; [reflexivity|]]]].
  apply (update_dog_not_atomic object_base 1 [("age", Some "5")] [] "__class__" "x"
           db_rex (Dog_init 1 rex) eq_refl (sound_object_base _)).
  - intros k [<- | []]. discriminate.
  - reflexivity.
  - reflexivity.
  - intros k [].
Defined.


Lemma update_dog_null_body_witness :
  dict_get 2 db_rex_bim = Some (Dog_init 2 bim) /\
  update_dog object_base 2 [("age", None); ("__class__", None)] db_rex_bim
  = (Ok (Dog_init 2 bim), db_rex_bim) /\
  update_dog object_base 2 [] db_rex_bim = (Ok (Dog_init 2 bim), db_rex_bim).
Proof.
  split; [reflexivity | split].
  - apply (update_dog_null_body object_base 2 [("age", None); ("__class__", None)]
             db_rex_bim (Dog_init 2 bim) eq_refl).
    + intros key [<- | [<- | []]]; reflexivity.
    + intros key value [[= <- <-] | [[= <- <-] | []]]; reflexivity.
  - apply (update_dog_null_body object_base 2 [] db_rex_bim (Dog_init 2 bim) eq_refl).
    + intros key [].
    + intros key value [].
Defined.


(** ** What holds after any sequence of writing requests *)

Lemma update_loop_pk (base : base_class)
  (update_data : list (string * option string)) :
  forall current : DogObj,
    obj_pk (fst (update_loop base update_data current)) = obj_pk current \/
    exists s, obj_pk (fst (update_loop base update_data current)) = Str s.
Proof.
  induction update_data as [|[key value] rest IH]; intros current; [now left|].
  simpl. destruct (hasattr base current key) as [[|]|]; [| apply IH | now left].
  destruct value as [v|]; [|apply IH].
  unfold setattr. destruct (field_of key) as [f|].
  - destruct (negb (field_raises base (obj_extra current) f)).
    + destruct (IH (set_field f v current)) as [E | E]; [|now right].
      rewrite E. destruct f; simpl; [right; now exists v | now left ..].
    + destruct f; simpl; [right; now exists v | now left ..].
  - destruct (inherits base key); [now left | now left |].
    destruct (IH (set_extra key v current)) as [E | E]; [left; exact E | now right].
Qed.

Lemma serve_call_keys (base : base_class) (c : call) (db : dict) :
  NoDup (keys db) -> NoDup (keys (snd (serve_call base c db))).
Proof.
  intros H. destruct c as [dog | pk0 update_data | pk0]; simpl.
  - destruct (create_dog_cases dog db) as [[_ E] | [k [_ E]]]; rewrite E; simpl;
      [exact H | now apply NoDup_keys_dict_set].
  - destruct (update_dog_store base pk0 update_data db) as [E | [current [_ E]]];
      rewrite E; [exact H | now apply NoDup_keys_dict_set].
  - rewrite delete_dog_store. now apply NoDup_keys_dict_del.
Qed.

Lemma serve_call_pk_key_or_str (base : base_class) (c : call) (db : dict) :
  pk_key_or_str db -> pk_key_or_str (snd (serve_call base c db)).
Proof.
  intros H. destruct c as [dog | pk0 update_data | pk0]; simpl.
  - destruct (create_dog_cases dog db) as [[_ E] | [k [_ E]]]; rewrite E; simpl;
      [exact H|].
    intros k' d Hin. destruct (In_dict_set _ _ _ _ _ Hin) as [Heq | Hold].
    + inversion Heq. now left.
    + now apply H.
  - destruct (update_dog_store base pk0 update_data db) as [E | [current [Hget E]]];
      rewrite E; [exact H|].
    intros k' d Hin. destruct (In_dict_set _ _ _ _ _ Hin) as [Heq | Hold].
    + inversion Heq. subst.
      destruct (update_loop_pk base update_data current) as [E' | E']; [|now right].
      rewrite E'. apply H. now apply dict_get_In.
    + now apply H.
  - rewrite delete_dog_store. intros k' d Hin. apply In_dict_del in Hin.
    now apply H.
Qed.

Lemma serve_call_pk_intact (base : base_class) (c : call) (db : dict) :
  pk_intact db -> keeps_pk c = true -> pk_intact (snd (serve_call base c db)).
Proof.
  intros H Hk. destruct c as [dog | pk0 update_data | pk0]; simpl in *.
  - destruct (create_dog_cases dog db) as [[_ E] | [k [_ E]]]; rewrite E; simpl;
      [exact H | now apply pk_intact_dict_set].
  - destruct (patched "pk" update_data) eqn:Hp; [discriminate|].
    destruct (update_dog_store base pk0 update_data db) as [E | [current [Hget E]]];
      rewrite E; [exact H|].
    intros k' d Hin. destruct (In_dict_set _ _ _ _ _ Hin) as [Heq | Hold].
    + inversion Heq. subst. rewrite update_loop_keeps_pk by exact Hp.
      apply H. now apply dict_get_In.
    + now apply H.
  - rewrite delete_dog_store. now apply pk_intact_dict_del.
Qed.

Lemma create_dog_intact_ok (dog : Dog) (db : dict) :
  pk_intact db -> exists stored, fst (create_dog dog db) = Ok stored.
Proof.
  intros H. destruct (falsy (pk dog)) eqn:F.
  - rewrite (create_dog_stores _ _ _ (new_pk_intact dog db H F)). now eexists.
  - destruct (new_pk_given dog db F) as [k [_ Hk]].
    rewrite (create_dog_stores _ _ _ Hk). now eexists.
Qed.

(** X13: whatever creates, updates and deletes were served, starting from
    the empty store, the keys of the store are distinct and every stored
    record carries as [pk] its own key or a [str] that an update put
    there, never [None] and never the key of another record. *)
Theorem store_after_shape (base : base_class) (calls : list call) :
  NoDup (keys (store_after base calls [])) /\
  pk_key_or_str (store_after base calls []).
Proof.
  assert (forall db, NoDup (keys db) /\ pk_key_or_str db ->
                     NoDup (keys (store_after base calls db)) /\
                     pk_key_or_str (store_after base calls db)) as Hgen.
  { induction calls as [|c calls IH]; intros db [Hk Hp]; [now split|].
    simpl. apply IH. split;
      [now apply serve_call_keys | now apply serve_call_pk_key_or_str]. }
  apply Hgen. split; [constructor | intros k dog []].
Qed.

(** X14: served from the empty store, a sequence of creates, updates and
    deletes in which no update body gives a non-null value for ["pk"]
    leaves every stored record with its key as [pk], and every create of
    the sequence is answered with a record, none with an exception. *)
Theorem creates_answered (base : base_class) (calls : list call) :
  forallb keeps_pk calls = true ->
  pk_intact (store_after base calls []) /\
  existsb create_raised (combine calls (answers base calls [])) = false.
Proof.
  assert (forall db, pk_intact db -> forallb keeps_pk calls = true ->
                     pk_intact (store_after base calls db) /\
                     existsb create_raised (combine calls (answers base calls db)) = false)
    as Hgen.
  { induction calls as [|c calls IH]; intros db Hi Hk; [now split|].
    simpl in Hk. apply andb_true_iff in Hk. destruct Hk as [Hc Hk].
    destruct (IH _ (serve_call_pk_intact base c db Hi Hc) Hk) as [IH1 IH2].
    simpl. split; [exact IH1|]. rewrite IH2, orb_false_r.
    destruct c as [dog | pk0 update_data | pk0]; simpl; [|reflexivity ..].
    destruct (create_dog_intact_ok dog db Hi) as [stored E]. now rewrite E. }
  intros Hk. apply Hgen; [intros k dog [] | exact Hk].
Qed.

Lemma creates_answered_witness :
  forallb keeps_pk
    [CreateDog rex; UpdateDog 1 [("age", Some "5")]; DeleteDog 1; CreateDog bim] = true /\
  pk_intact
    (store_after object_base
       [CreateDog rex; UpdateDog 1 [("age", Some "5")]; DeleteDog 1; CreateDog bim] []) /\
  existsb create_raised
    (combine [CreateDog rex; UpdateDog 1 [("age", Some "5")]; DeleteDog 1; CreateDog bim]
       (answers object_base
          [CreateDog rex; UpdateDog 1 [("age", Some "5")]; DeleteDog 1; CreateDog bim] []))
  = false.
Proof.
  split; [reflexivity|].
  exact (creates_answered object_base
           [CreateDog rex; UpdateDog 1 [("age", Some "5")]; DeleteDog 1; CreateDog bim]
           eq_refl).
Defined.

(** ** What the reading handlers show after a write *)

Lemma DogType_eqb_refl (k : DogType) : DogType_eqb k k = true.
Proof.
  now destruct k.
Qed.

Lemma DogType_eqb_eq (a b : DogType) : DogType_eqb a b = true -> a = b.
Proof.
  now destruct a, b.
Qed.

Lemma In_values (k : Z) (dog : DogObj) (db : dict) : In (k, dog) db -> In dog (values db).
Proof.
  intros H. unfold values. apply in_map_iff. now exists (k, dog).
Qed.

Lemma values_In (dog : DogObj) (db : dict) :
  In dog (values db) -> exists k, In (k, dog) db.
Proof.
  unfold values. intros H. apply in_map_iff in H.
  destruct H as [[k d] [E Hin]]. simpl in E. subst. now exists k.
Qed.

(** X15: a record that [create_dog] answered with is from then on in the
    listing of [root], in the answer of [get_dogs] for its kind, and in the
    answer of [search_dog_by_name] for its name, which therefore does not
    raise [NotFound]. *)
Theorem created_record_visible (str_lower : string -> string) (dog : Dog)
  (db db' : dict) (stored : DogObj) :
  create_dog dog db = (Ok stored, db') ->
  In stored (root db') /\
  In stored (get_dogs (kind dog) db') /\
  exists found,
    search_dog_by_name str_lower (name dog) db' = Ok found /\ In stored found.
Proof.
  intros H. destruct (create_dog_cases dog db) as [[_ E] | [k [_ E]]];
    rewrite E in H; [discriminate|].
  injection H as <- <-.
  assert (In (Dog_init k dog) (values (dict_set k (Dog_init k dog) db))) as Hin.
  { apply (In_values k). apply dict_get_In. apply dict_get_set_same. }
  split; [exact Hin | split].
  - unfold get_dogs. apply filter_In. split; [exact Hin|]. simpl.
    apply DogType_eqb_refl.
  - unfold search_dog_by_name.
    set (f := fun d => String.eqb (str_lower (obj_name d)) (str_lower (name dog))).
    assert (In (Dog_init k dog) (filter f (values (dict_set k (Dog_init k dog) db))))
      as Hf.
    { apply filter_In. split; [exact Hin|]. unfold f. simpl. apply String.eqb_refl. }
    destruct (filter f (values (dict_set k (Dog_init k dog) db))) as [|d l];
      [destruct Hf|].
    exists (d :: l). now split.
Qed.

Lemma created_record_visible_witness :
  create_dog buddy db_rex_bim
  = (Ok (Dog_init 3 buddy), (db_rex_bim ++ [(3, Dog_init 3 buddy)])%list) /\
  In (Dog_init 3 buddy) (root (db_rex_bim ++ [(3, Dog_init 3 buddy)])%list) /\
  In (Dog_init 3 buddy) (get_dogs bulldog (db_rex_bim ++ [(3, Dog_init 3 buddy)])%list) /\
  exists found,
    search_dog_by_name lower "Buddy" (db_rex_bim ++ [(3, Dog_init 3 buddy)])%list
    = Ok found /\
    In (Dog_init 3 buddy) found.
Proof.
  split; [reflexivity|].
  exact (created_record_visible lower buddy db_rex_bim
           (db_rex_bim ++ [(3, Dog_init 3 buddy)])%list (Dog_init 3 buddy) eq_refl).
Defined.

(** X16: on a store whose records carry their keys, a record that
    [delete_dog] removed is in no later listing of [root], in no answer of
    [get_dogs] and in no answer of [search_dog_by_name]. *)
Theorem deleted_record_gone (pk0 : Z) (db : dict) (deleted : DogObj) :
  pk_intact db ->
  get_dog_by_pk pk0 db = Ok deleted ->
  ~ In deleted (root (snd (delete_dog pk0 db))) /\
  (forall kind0, ~ In deleted (get_dogs kind0 (snd (delete_dog pk0 db)))) /\
  (forall str_lower name0 found,
     search_dog_by_name str_lower name0 (snd (delete_dog pk0 db)) = Ok found ->
     ~ In deleted found).
Proof.
  intros Hi Hget. unfold get_dog_by_pk in Hget.
  destruct (dict_get pk0 db) as [d|] eqn:E; [|discriminate]. injection Hget as ->.
  rewrite delete_dog_store.
  assert (~ In deleted (values (dict_del pk0 db))) as Hgone.
  { intros Hin. apply values_In in Hin. destruct Hin as [k Hin].
    apply In_dict_del in Hin. destruct Hin as [Hin Hk].
    apply Hi in Hin. apply dict_get_In, Hi in E. congruence. }
  split; [exact Hgone | split].
  - intros kind0 Hin. unfold get_dogs in Hin. apply filter_In in Hin. tauto.
  - intros str_lower name0 found Hs Hin. unfold search_dog_by_name in Hs.
    destruct (filter _ (values (dict_del pk0 db))) as [|d l] eqn:Ef; [discriminate|].
    injection Hs as <-. rewrite <- Ef in Hin. apply filter_In in Hin. tauto.
Qed.

Lemma deleted_record_gone_witness :
  pk_intact db_rex_bim /\
  get_dog_by_pk 1 db_rex_bim = Ok (Dog_init 1 rex) /\
  ~ In (Dog_init 1 rex) (root (snd (delete_dog 1 db_rex_bim))) /\
  (forall kind0, ~ In (Dog_init 1 rex) (get_dogs kind0 (snd (delete_dog 1 db_rex_bim)))) /\
  (forall str_lower name0 found,
     search_dog_by_name str_lower name0 (snd (delete_dog 1 db_rex_bim)) = Ok found ->
     ~ In (Dog_init 1 rex) found).
Proof.
  split; [exact pk_intact_db_rex_bim | split; [reflexivity|]].
  exact (deleted_record_gone 1 db_rex_bim (Dog_init 1 rex) pk_intact_db_rex_bim eq_refl).
Defined.

(** X17: the answers of [get_dogs] for two different kinds share no record,
    so the three answers together are no longer than the listing; a record
    whose kind an update replaced by a [str] that is the value of no member
    is in the answer for no kind. *)
Theorem get_dogs_disjoint (db : dict) :
  (forall dog k1 k2,
     In dog (get_dogs k1 db) -> In dog (get_dogs k2 db) -> k1 = k2) /\
  (List.length (get_dogs terrier db) + List.length (get_dogs bulldog db)
   + List.length (get_dogs dalmatian db) <= List.length (root db))%nat /\
  (forall dog s,
     obj_kind dog = Str s -> (forall k, DogType_value k <> s) ->
     forall k, ~ In dog (get_dogs k db)).
Proof.
  split; [| split].
  - intros dog k1 k2 H1 H2. unfold get_dogs in *.
    apply filter_In in H1. apply filter_In in H2.
    destruct H1 as [_ H1], H2 as [_ H2]. unfold kind_eq in *.
    destruct (obj_kind dog) as [k|s].
    + apply DogType_eqb_eq in H1. apply DogType_eqb_eq in H2. congruence.
    + apply String.eqb_eq in H1. apply String.eqb_eq in H2. subst s.
      destruct k1, k2; (reflexivity || discriminate).
  - unfold get_dogs, root. induction (values db) as [|dog l IH]; simpl; [lia|].
    assert (forall a : attr DogType,
               (if kind_eq a terrier then 1 else 0) + (if kind_eq a bulldog then 1 else 0)
               + (if kind_eq a dalmatian then 1 else 0) <= 1)%nat as Hone.
    { intros [k|s]; simpl.
      - destruct k; simpl; lia.
      - destruct (String.eqb_spec s "terrier") as [-> | _]; simpl; [lia|].
        destruct (String.eqb_spec s "bulldog") as [-> | _]; simpl; [lia|].
        destruct (String.eqb s "dalmatian"); lia. }
    specialize (Hone (obj_kind dog)).
    destruct (kind_eq (obj_kind dog) terrier), (kind_eq (obj_kind dog) bulldog),
      (kind_eq (obj_kind dog) dalmatian); simpl in *; lia.
  - intros dog s Hs Hno k Hin. unfold get_dogs in Hin. apply filter_In in Hin.
    destruct Hin as [_ Hin]. unfold kind_eq in Hin. rewrite Hs in Hin.
    apply String.eqb_eq in Hin. symmetry in Hin. now apply (Hno k).
Qed.

(** X18: in a store with distinct keys whose records carry their keys, the
    records [root] lists are the records [get_dog_by_pk] finds, each under
    the identifier it carries. *)
Theorem root_get_dog_by_pk (db : dict) :
  NoDup (keys db) ->
  pk_intact db ->
  forall dog,
    In dog (root db) <->
    exists k, obj_pk dog = Valid (Some k) /\ get_dog_by_pk k db = Ok dog.
Proof.
  intros Hnd Hi dog. unfold root, get_dog_by_pk. split.
  - intros Hin. apply values_In in Hin. destruct Hin as [k Hin].
    exists k. split; [now apply Hi|]. now rewrite (dict_get_NoDup k dog).
  - intros [k [_ Hget]]. destruct (dict_get k db) as [d|] eqn:E; [|discriminate].
    injection Hget as ->. apply (In_values k). now apply dict_get_In.
Qed.

Lemma root_get_dog_by_pk_witness :
  NoDup (keys db_rex_bim) /\
  pk_intact db_rex_bim /\
  (In (Dog_init 2 bim) (root db_rex_bim) <->
   exists k, obj_pk (Dog_init 2 bim) = Valid (Some k) /\
             get_dog_by_pk k db_rex_bim = Ok (Dog_init 2 bim)).
Proof.
  assert (NoDup (keys db_rex_bim)) as H.
  { repeat constructor; simpl; [intros [E | []]; discriminate | tauto]. }
  split; [exact H | split; [exact pk_intact_db_rex_bim|]].
  exact (root_get_dog_by_pk db_rex_bim H pk_intact_db_rex_bim (Dog_init 2 bim)).
Defined.

(** X19: after an update of a record that assignment to a field does not
    break, whose body has only fields as keys and gives the name [v],
    [search_dog_by_name] for [v] answers with a list that holds the updated
    record. *)
Theorem update_name_then_search (str_lower : string -> string) (base : base_class)
  (pk0 : Z) (update_data : list (string * option string)) (v : string) (db : dict)
  (current : DogObj) :
  dict_get pk0 db = Some current ->
  sound base current ->
  (forall key, In key (map fst update_data) -> field_of key <> None) ->
  patched "name" update_data = Some v ->
  exists dog' found,
    fst (update_dog base pk0 update_data db) = Ok dog' /\
    obj_name dog' = v /\
    search_dog_by_name str_lower v (snd (update_dog base pk0 update_data db)) = Ok found /\
    In dog' found.
Proof.
  intros Hget Hs Hall Hname.
  destruct (update_loop_fields base update_data current Hs Hall) as [dog' [Hloop Hp]].
  assert (update_dog base pk0 update_data db = (Ok dog', dict_set pk0 dog' db)) as E.
  { unfold update_dog.
    now rewrite Hget, (no_invalid_keys _ _ _ (all_attrs_fields base current _ Hall)), Hloop. }
  assert (obj_name dog' = v) as Hv.
  { destruct Hp as (_ & H2 & _). now rewrite Hname in H2. }
  rewrite E. cbn [fst snd]. unfold search_dog_by_name.
  set (f := fun d => String.eqb (str_lower (obj_name d)) (str_lower v)).
  assert (In dog' (filter f (values (dict_set pk0 dog' db)))) as Hf.
  { apply filter_In. split.
    - apply (In_values pk0), dict_get_In, dict_get_set_same.
    - unfold f. rewrite Hv. apply String.eqb_refl. }
  destruct (filter f (values (dict_set pk0 dog' db))) as [|d l]; [destruct Hf|].
  exists dog', (d :: l). now repeat split.
Qed.

Lemma update_name_then_search_witness :
  dict_get 2 db_rex_bim = Some (Dog_init 2 bim) /\
  sound object_base (Dog_init 2 bim) /\
  patched "name" [("name", Some "Bob"); ("age", None)] = Some "Bob" /\
  exists dog' found,
    fst (update_dog object_base 2 [("name", Some "Bob"); ("age", None)] db_rex_bim)
    = Ok dog' /\
    obj_name dog' = "Bob" /\
    search_dog_by_name lower "Bob"
      (snd (update_dog object_base 2 [("name", Some "Bob"); ("age", None)] db_rex_bim))
    = Ok found /\
    In dog' found.
Proof.
  split; [reflexivity | split; [exact (sound_object_base _) | split; [reflexivity|]]].
  apply (update_name_then_search lower object_base 2 [("name", Some "Bob"); ("age", None)]
           "Bob" db_rex_bim (Dog_init 2 bim) eq_refl (sound_object_base _));
    [|reflexivity].
  intros key [<- | [<- | []]]; discriminate.
Defined.

(** ** Lower-casing *)

Lemma lower_ascii_idempotent (c : ascii) : lower_ascii (lower_ascii c) = lower_ascii c.
Proof.
  destruct c as [[] [] [] [] [] [] [] []]; reflexivity.
Qed.

Lemma lower_idempotent (s : string) : lower (lower s) = lower s.
Proof.
  induction s as [|c s IH]; simpl; [reflexivity|].
  now rewrite lower_ascii_idempotent, IH.
Qed.

Lemma lower_ascii_below_128 (c : ascii) :
  (nat_of_ascii c <? 128)%nat = true -> (nat_of_ascii (lower_ascii c) <? 128)%nat = true.
Proof.
  destruct c as [[] [] [] [] [] [] [] []]; intros H; (exact H || reflexivity).
Qed.

Lemma ascii_only_lower (s : string) : ascii_only s = true -> ascii_only (lower s) = true.
Proof.
  induction s as [|c s IH]; simpl; [reflexivity|].
  intros H. apply andb_true_iff in H. destruct H as [Hc Hs].
  now rewrite (lower_ascii_below_128 c Hc), IH.
Qed.

Section SearchLowered.

Variable str_lower : string -> string.
Hypothesis str_lower_ascii : forall s, ascii_only s = true -> str_lower s = lower s.

(** X20: an ASCII query and its lower-cased form get the same answer from
    [search_dog_by_name], and a record with an ASCII name is found by the
    lower-cased form of its own name. *)
Theorem search_dog_by_name_lowered (name0 : string) (db : dict) :
  (ascii_only name0 = true ->
   search_dog_by_name str_lower (lower name0) db
   = search_dog_by_name str_lower name0 db) /\
  (forall dog, In dog (root db) -> ascii_only (obj_name dog) = true ->
     exists found,
       search_dog_by_name str_lower (lower (obj_name dog)) db = Ok found /\
       In dog found).
Proof.
  assert (forall s, ascii_only s = true -> str_lower (lower s) = str_lower s) as Hidem.
  { intros s Hs. rewrite (str_lower_ascii _ (ascii_only_lower s Hs)).
    now rewrite (str_lower_ascii _ Hs), lower_idempotent. }
  split.
  - intros H0. apply search_dog_by_name_lower. now apply Hidem.
  - intros dog Hin Hd. unfold search_dog_by_name.
    set (f := fun d => String.eqb (str_lower (obj_name d))
                         (str_lower (lower (obj_name dog)))).
    assert (In dog (filter f (values db))) as Hf.
    { apply filter_In. split; [exact Hin|]. unfold f.
      rewrite (Hidem _ Hd). apply String.eqb_refl. }
    destruct (filter f (values db)) as [|d l]; [destruct Hf|].
    exists (d :: l). now split.
Qed.

End SearchLowered.

Lemma search_dog_by_name_lowered_witness :
  ascii_only "REX" = true /\
  search_dog_by_name lower (lower "REX") db_rex_bim
  = search_dog_by_name lower "REX" db_rex_bim /\
  search_dog_by_name lower "rex" db_rex_bim = Ok [Dog_init 1 rex].
Proof.
  split; [reflexivity | split; [| reflexivity]].
  exact (proj1 (search_dog_by_name_lowered lower (fun s _ => eq_refl) "REX" db_rex_bim)
           eq_refl).
Defined.

(** ** Create without identifier and the listing *)

Lemma next_id_fresh (db : dict) : ~ In (next_id db) (keys db).
Proof.
  intros Hin. unfold next_id, max_key in *. destruct db as [|[k0 v0] db]; [destruct Hin|].
  simpl in *. pose proof (fold_left_max_ge (keys db) k0) as [H1 H2].
  destruct Hin as [E | Hin]; [lia | apply H2 in Hin; lia].
Qed.

(** X21: on a store whose records carry their keys, a create without
    identifier replaces no record: the new record comes last in the store
    and in the listing of [root], and every identifier that was in the
    store still finds the record it found before. *)
Theorem create_dog_appends (dog : Dog) (db : dict) :
  pk_intact db ->
  falsy (pk dog) = true ->
  snd (create_dog dog db) = (db ++ [(next_id db, Dog_init (next_id db) dog)])%list /\
  root (snd (create_dog dog db)) = (root db ++ [Dog_init (next_id db) dog])%list /\
  (forall k, In k (keys db) ->
     get_dog_by_pk k (snd (create_dog dog db)) = get_dog_by_pk k db).
Proof.
  intros Hi Hf.
  rewrite (create_dog_stores dog db (next_id db) (new_pk_intact dog db Hi Hf)).
  cbn [snd]. rewrite (dict_set_fresh _ _ _ (next_id_fresh db)).
  split; [reflexivity | split].
  - unfold root, values. now rewrite map_app.
  - intros k Hk. rewrite <- (dict_set_fresh _ _ _ (next_id_fresh db)).
    unfold get_dog_by_pk. rewrite dict_get_set_other; [reflexivity|].
    intros ->. now apply (next_id_fresh db).
Qed.

Lemma create_dog_appends_witness :
  pk_intact db_rex_bim /\
  falsy (pk buddy) = true /\
  snd (create_dog buddy db_rex_bim)
  = [(1, Dog_init 1 rex); (2, Dog_init 2 bim); (3, Dog_init 3 buddy)] /\
  root (snd (create_dog buddy db_rex_bim))
  = [Dog_init 1 rex; Dog_init 2 bim; Dog_init 3 buddy] /\
  (forall k, In k (keys db_rex_bim) ->
     get_dog_by_pk k (snd (create_dog buddy db_rex_bim)) = get_dog_by_pk k db_rex_bim).
Proof.
  split; [exact pk_intact_db_rex_bim | split; [reflexivity|]].
  exact (create_dog_appends buddy db_rex_bim pk_intact_db_rex_bim eq_refl).
Defined.
